(** * Pseudoterminal sessions of obsidian-terminal

    A shallow embedding of [src/sources/terminal/pseudoterminal.ts] (the
    reference-counted wrapper, the in-process sessions, the Unix and the
    Windows session) and of the resize of the display-surface adapter
    ([asyncDebounce], [XtermTerminalEmulator]).

    Asynchronous code is modelled at the granularity of its observable
    events: one call of a method, one settlement of a promise, one timer
    firing.  A promise is its settlement state; [resolve] and [reject] on a
    settled promise do nothing, as in JavaScript.  Objects that are shared
    (the session and the counter array of a wrapper family) live in a heap
    and are referred to by their index.

    The first part holds the definitions, one module per class of the
    source; the second part ([RefFacts], [PseudoFacts], [ConsoleFacts],
    [ShellFacts], [EmulatorFacts]) holds their properties. *)

From Stdlib Require Import ZArith String Ascii List Lia.
From stdpp Require Import base option list strings pretty gmap.

Set Default Proof Using "Type".

(** ** Values shared by all sessions *)

(** A JavaScript [number], as far as exit codes and sizes need it. *)
Inductive JSNumber : Type :=
| NaN
| Num (z : Z).

(** A thrown value: [new Error(message)], [new TypeError(message)], ... *)
Record Error : Type := mkError { errName : string; errMessage : string }.

(** How a call ends: it returns, or it throws (for an [async] method: the
    returned promise is fulfilled, or rejected). *)
Inductive Completion (A : Type) : Type :=
| Normal (a : A)
| Throw (e : Error).
Arguments Normal {A} a.
Arguments Throw {A} e.

(** [NodeJS.Signals | number], the value of an exit future. *)
Inductive ExitValue : Type :=
| ExitCode (n : JSNumber)
| ExitSignal (s : string).

(** Modelled from the spec: [EXIT_SUCCESS] and [UNDEFINED] are constants of
    [magic.ts], which is not among the sources; the spec calls the first a
    synthetic success code, the second is JavaScript's [undefined]. *)
Definition EXIT_SUCCESS : ExitValue := ExitCode (Num 0).
Definition UNDEFINED : unit := tt.

Module Promise.

Inductive t (A : Type) : Type :=
| Pending
| Fulfilled (a : A)
| Rejected (e : Error).
Arguments Pending {A}.
Arguments Fulfilled {A} a.
Arguments Rejected {A} e.

Definition settled {A} (p : t A) : bool :=
  match p with Pending => false | _ => true end.

(** [settle o p]: [p] takes outcome [o] unless it is settled already. *)
Definition settle {A} (o p : t A) : t A :=
  match p with Pending => o | _ => p end.

Definition resolve {A} (v : A) (p : t A) : t A := settle (Fulfilled v) p.
Definition reject {A} (e : Error) (p : t A) : t A := settle (Rejected e) p.

End Promise.

(** ** The [Pseudoterminal] interface

    [kill] and the optional [resize] of a session of type [T], the members
    the wrapper acts on; a method returns its completion and the session
    after the call.  [resize] is an optional member, looked up on the
    object.  ([shell] and [pipe] are passed through and are left out.) *)
Class Pseudoterminal (T : Type) : Type := {
  pt_kill : T -> Completion unit * T;
  pt_resize : T -> option (Z -> Z -> Completion unit * T);
}.

(** ** [RefPsuedoterminal]: the reference-counted wrapper *)

Module Ref.
Section Wrapper.
Context {T : Type} `{Pseudoterminal T}.

(** A delegate session on the heap, with its [onExit] promise as the
    subscribers of that promise see it. *)
Record Session : Type := mkSession {
  state : T;
  onExit : Promise.t ExitValue;
}.

(** A wrapper object: [delegate] and [#ref] are references, so that
    duplicates share the session and the one-element counter array;
    [exit] is the wrapper's own [#exit]. *)
Record Wrapper : Type := mkWrapper {
  delegate : nat;
  ref : nat;
  exit : Promise.t ExitValue;
}.

(** Calls made on delegate sessions, in order (ghost state). *)
Inductive Call : Type :=
| CallKill (d : nat)
| CallResize (d : nat) (columns rows : Z).

Record Heap : Type := mkHeap {
  sessions : list Session;
  cells : list Z;
  wrappers : list Wrapper;
  calls : list Call;
}.

(** The constructor's argument: a plain session or another wrapper. *)
Inductive CtorArg : Type :=
| OfSession (d : nat)
| OfWrapper (w : nat).

(** [new RefPsuedoterminal(delegate)].  The wrapper subscribes to the
    delegate's [onExit]; when that is settled already the callbacks run
    at once, so the new [exit] starts in the delegate's state. *)
Definition construct (a : CtorArg) (h : Heap) : option (nat * Heap) :=
  match a with
  | OfWrapper w =>
      wr ← wrappers h !! w;
      s ← sessions h !! delegate wr;
      c ← cells h !! ref wr;
      Some (length (wrappers h),
            {| sessions := sessions h;
               cells := <[ref wr := (c + 1)%Z]> (cells h);
               wrappers := wrappers h ++
                 [{| delegate := delegate wr; ref := ref wr;
                     exit := Promise.settle (onExit s) Promise.Pending |}];
               calls := calls h |})
  | OfSession d =>
      s ← sessions h !! d;
      Some (length (wrappers h),
            {| sessions := sessions h;
               cells := cells h ++ [(0 + 1)%Z];
               wrappers := wrappers h ++
                 [{| delegate := d; ref := length (cells h);
                     exit := Promise.settle (onExit s) Promise.Pending |}];
               calls := calls h |})
  end.

Definition dup (w : nat) (h : Heap) : option (nat * Heap) :=
  construct (OfWrapper w) h.

(** [kill()]: [if (--this.#ref[0] <= 0) delegate.kill() else resolve own
    exit with EXIT_SUCCESS]. *)
Definition kill (w : nat) (h : Heap) : option (Completion unit * Heap) :=
  wr ← wrappers h !! w;
  c ← cells h !! ref wr;
  let c' := (c - 1)%Z in
  let cells' := <[ref wr := c']> (cells h) in
  if (c' <=? 0)%Z then
    s ← sessions h !! delegate wr;
    let '(r, st) := pt_kill (state s) in
    Some (r, {| sessions := <[delegate wr := mkSession st (onExit s)]> (sessions h);
                cells := cells';
                wrappers := wrappers h;
                calls := calls h ++ [CallKill (delegate wr)] |})
  else
    Some (Normal tt,
          {| sessions := sessions h;
             cells := cells';
             wrappers := <[w := mkWrapper (delegate wr) (ref wr)
                                  (Promise.resolve EXIT_SUCCESS (exit wr))]> (wrappers h);
             calls := calls h |}).

(** [resize(columns, rows)]: delegate when the member exists, else
    [return UNDEFINED]. *)
Definition resize (w : nat) (columns rows : Z) (h : Heap)
  : option (Completion unit * Heap) :=
  wr ← wrappers h !! w;
  s ← sessions h !! delegate wr;
  match pt_resize (state s) with
  | Some f =>
      let '(r, st) := f columns rows in
      Some (r, {| sessions := <[delegate wr := mkSession st (onExit s)]> (sessions h);
                  cells := cells h;
                  wrappers := wrappers h;
                  calls := calls h ++ [CallResize (delegate wr) columns rows] |})
  | None => Some (Normal UNDEFINED, h)
  end.

(** The callbacks of [this.delegate.onExit.then(...)] in a wrapper. *)
Definition forward (d : nat) (o : Promise.t ExitValue) (wr : Wrapper) : Wrapper :=
  if decide (delegate wr = d)
  then mkWrapper (delegate wr) (ref wr) (Promise.settle o (exit wr))
  else wr.

(** The exit future of session [d] settles with [o]: every subscribed
    wrapper is told.  A settled future does not settle again. *)
Definition sessionExit (d : nat) (o : Promise.t ExitValue) (h : Heap) : option Heap :=
  s ← sessions h !! d;
  match onExit s with
  | Promise.Pending =>
      Some {| sessions := <[d := mkSession (state s) o]> (sessions h);
              cells := cells h;
              wrappers := forward d o <$> wrappers h;
              calls := calls h |}
  | _ => Some h
  end.

(** Scripts of operations, to run scenarios. *)
Inductive Op : Type :=
| New (d : nat)
| Dup (w : nat)
| Kill (w : nat)
| Exit (d : nat) (o : Promise.t ExitValue).

Definition step (o : Op) (h : Heap) : option Heap :=
  match o with
  | New d => snd <$> construct (OfSession d) h
  | Dup w => snd <$> dup w h
  | Kill w => snd <$> kill w h
  | Exit d o => sessionExit d o h
  end.

Fixpoint run (ops : list Op) (h : Heap) : option Heap :=
  match ops with
  | [] => Some h
  | o :: ops => h' ← step o h; run ops h'
  end.

(** A heap holding one live session and no wrapper yet. *)
Definition init (t : T) : Heap :=
  {| sessions := [mkSession t Promise.Pending]; cells := []; wrappers := []; calls := [] |}.

Definition isKillOf (d : nat) (c : Call) : bool :=
  match c with CallKill d' => Nat.eqb d d' | _ => false end.

(** How often the real [kill] of session [d] was called. *)
Definition realKills (d : nat) (h : Heap) : nat :=
  length (List.filter (isKillOf d) (calls h)).

End Wrapper.
Arguments Session T : clear implicits.
Arguments Heap T : clear implicits.
End Ref.

(** ** The display surface, as far as sessions use it *)

Module Xterm.

(** What a [DisposerAddon] built by a session undoes when it is disposed. *)
Inductive Disposer : Type :=
| RemoveFromTerminals
| UnsetEditor.

Inductive Listener : Type :=
| OnData
| OnKey
| OnResize.

Record Terminal : Type := mkTerminal {
  handle : nat;
  addons : list (list Disposer);
  listeners : list Listener;
  written : list string;
}.

Definition loadAddon (a : list Disposer) (t : Terminal) : Terminal :=
  mkTerminal (handle t) (addons t ++ [a]) (listeners t) (written t).

Definition listen (l : Listener) (t : Terminal) : Terminal :=
  mkTerminal (handle t) (addons t) (listeners t ++ [l]) (written t).

(** Modelled from the spec: [writePromise] of [terminal/util.ts] is not
    among the sources; the surface's contract is [write(text) -> ack]. *)
Definition writePromise (text : string) (t : Terminal) : Terminal :=
  mkTerminal (handle t) (addons t) (listeners t) (written t ++ [text]).

Definition ESC : string := String (ascii_of_nat 27) EmptyString.

(** [clearTerminal(terminal)] with [keep = false]:
    [ansi.erase.display(3)] then [ansi.cursor.position()]. *)
Definition clearTerminal (t : Terminal) : Terminal :=
  writePromise (ESC ++ "[3J" ++ ESC ++ "[1;1H") t.

End Xterm.

(** ** Values and collaborators of the in-process sessions *)

(** A source position, as [acorn] reports it. *)
Record Position : Type := mkPosition { line : nat; column : nat }.

(** A statement of the parsed program: [start] and the optional [loc]. *)
Record Stmt : Type := mkStmt {
  start : nat;
  loc : option (Position * Position);
}.

#[local] Unset Elimination Schemes.
Inductive JSValue : Type :=
| VUndefined
| VNumber (n : JSNumber)
| VString (s : string)
| VArray (items : list JSValue)
| VError (e : Error).
#[local] Set Elimination Schemes.

(** What the in-process sessions call and the sources do not contain:
    text normalisation, rendering and the edit buffer ([terminal/util.ts]),
    the parser ([acorn]), the scripting context ([asyncFunction]) and
    [String(_)]. *)
Class Collaborators : Type := {
  normalizeText : string -> string;
  formatLog : list JSValue -> string;
  renderBuffer : string -> string;
  bufferWrite : string -> string -> string;
  parse : string -> Completion (list Stmt);
  evaluate : string -> list Position -> Completion JSValue;
  toString : JSValue -> string;
}.

(** ** [PseudoPseudoterminal] and its two subclasses *)

Module Pseudo.

Record Base : Type := mkBase {
  exited : bool;
  terminals : list nat;
  exit : Promise.t ExitValue;
}.

Definition create : Base := mkBase false [] Promise.Pending.

(** [kill()] resolves [#exit]; the two [finally] callbacks of [onExit]
    then set [exited] and clear [terminals]. *)
Definition kill (s : Base) : Completion unit * Base :=
  match exit s with
  | Promise.Pending =>
      (Normal tt, mkBase true [] (Promise.resolve EXIT_SUCCESS (exit s)))
  | _ => (Normal tt, s)
  end.

(** [pipe(terminal)]: [if (this.exited) throw new Error()], then load
    the disposer addon and push the terminal. *)
Definition pipe (t : Xterm.Terminal) (s : Base)
  : Completion unit * Base * Xterm.Terminal :=
  if exited s then (Throw (mkError "Error" ""), s, t)
  else (Normal tt,
        mkBase (exited s) (terminals s ++ [Xterm.handle t]) (exit s),
        Xterm.loadAddon [Xterm.RemoveFromTerminals] t).

End Pseudo.

Module TextPseudoterminal.
Section Text.
Context `{Collaborators}.

Record t : Type := mkText { base : Pseudo.Base; text : string }.

Definition create (text : string) : t := mkText Pseudo.create text.

(** [rewrite(text, [terminal])]: clear the terminal, then write. *)
Definition rewrite (text : string) (term : Xterm.Terminal) : Xterm.Terminal :=
  Xterm.writePromise text (Xterm.clearTerminal term).

(** [await super.pipe(terminal); await this.rewrite(...)]. *)
Definition pipe (term : Xterm.Terminal) (s : t)
  : Completion unit * t * Xterm.Terminal :=
  match Pseudo.pipe term (base s) with
  | (Throw e, b, term') => (Throw e, mkText b (text s), term')
  | (Normal _, b, term') =>
      (Normal tt, mkText b (text s), rewrite (normalizeText (text s)) term')
  end.

Definition kill (s : t) : Completion unit * t :=
  let '(r, b) := Pseudo.kill (base s) in (r, mkText b (text s)).

End Text.
End TextPseudoterminal.

(** ** [DeveloperConsolePseudoterminal] *)

Module DeveloperConsole.
Section Console.
Context `{Collaborators}.

Inductive Level : Type := LDebug | LError | LLog.

(** One call on [self1.console]. *)
Record Entry : Type := mkEntry { level : Level; payload : JSValue }.

Record t : Type := mkConsole {
  base : Pseudo.Base;
  buffer : string;
  history : list string;
  historyIndex : Z;
  editors : list nat;
  logHistory : list JSValue;
  console : list Entry;
}.

(** [#history = [""]], [#historyIndex = 0]. *)
Definition create (log : list JSValue) : t :=
  mkConsole Pseudo.create "" [""] 0 [] log [].

Definition setBase (b : Pseudo.Base) (s : t) : t :=
  mkConsole b (buffer s) (history s) (historyIndex s) (editors s)
    (logHistory s) (console s).
Definition setBuffer (v : string) (s : t) : t :=
  mkConsole (base s) v (history s) (historyIndex s) (editors s)
    (logHistory s) (console s).
Definition setHistory (l : list string) (s : t) : t :=
  mkConsole (base s) (buffer s) l (historyIndex s) (editors s)
    (logHistory s) (console s).
Definition setHistoryIndex (i : Z) (s : t) : t :=
  mkConsole (base s) (buffer s) (history s) i (editors s)
    (logHistory s) (console s).
Definition setEditor (term : nat) (s : t) : t :=
  mkConsole (base s) (buffer s) (history s) (historyIndex s)
    (term :: List.filter (fun e => negb (Nat.eqb e term)) (editors s))
    (logHistory s) (console s).
Definition emit (l : Level) (v : JSValue) (s : t) : t :=
  mkConsole (base s) (buffer s) (history s) (historyIndex s) (editors s)
    (logHistory s) (console s ++ [mkEntry l v]).

(** [write(events, [terminal])] then [syncBuffer([terminal], false)]:
    the formatted events, a fresh editor record, then the redraw. *)
Definition write (events : list JSValue) (term : Xterm.Terminal) (s : t)
  : t * Xterm.Terminal :=
  (setEditor (Xterm.handle term) s,
   Xterm.writePromise (renderBuffer (buffer s))
     (Xterm.writePromise (formatLog events) term)).

(** [pipe(terminal)]: [await super.pipe(terminal)] first, then the second
    disposer addon, the three listeners and the log replay. *)
Definition pipe (term : Xterm.Terminal) (s : t)
  : Completion unit * t * Xterm.Terminal :=
  match Pseudo.pipe term (base s) with
  | (Throw e, b, term') => (Throw e, setBase b s, term')
  | (Normal _, b, term') =>
      let term1 := Xterm.loadAddon [Xterm.UnsetEditor] term' in
      let term2 := Xterm.listen Xterm.OnResize
                     (Xterm.listen Xterm.OnKey (Xterm.listen Xterm.OnData term1)) in
      let '(s', term3) := write (logHistory s) term2 (setBase b s) in
      (Normal tt, s', term3)
  end.

(** [Array.prototype.at]: a negative index counts from the end. *)
Definition at_ {A} (l : list A) (i : Z) : option A :=
  let k := if (i <? 0)%Z then (Z.of_nat (length l) + i)%Z else i in
  if (k <? 0)%Z then None else l !! Z.to_nat k.

Definition newline : ascii := ascii_of_nat 10.

(** [s.includes("\n")]. *)
Definition includesNewline (s : string) : bool :=
  existsb (Ascii.eqb newline) (list_ascii_of_string s).

(** [(this.#history.at(-1) ?? "").includes("\n")]. *)
Definition editingMultiline (s : t) : bool :=
  includesNewline (default "" (at_ (history s) (-1))).

Inductive Arrow : Type := ArrowUp | ArrowDown.

(** The body run under the lock for ArrowUp and ArrowDown; [%] is the
    remainder of JavaScript, which takes the sign of the dividend. *)
Definition navigate (key : Arrow) (s : t) : t :=
  if editingMultiline s then s
  else
    let length := Z.of_nat (length (history s)) in
    if (length <=? 0)%Z then s
    else
      let index := Z.rem (historyIndex s +
                          match key with ArrowDown => 1 | ArrowUp => -1 end) length in
      let s1 := setHistoryIndex index s in
      match at_ (history s1) index with
      | None => s1
      | Some text => setBuffer text s1
      end.

(** The [onData] body run under the lock: the chunk is applied to the
    buffer and the open history entry mirrors the buffer. *)
Definition onData (data : string) (s : t) : t :=
  let s1 := setBuffer (bufferWrite data (buffer s)) s in
  setHistory (<[length (history s1) - 1 := buffer s1]> (history s1)) s1.

(** [codeRet]: the code with its last statement wrapped in
    [return [( ... )]]; empty when the program has no statement. *)
Definition codeRet (code : string) (lastStmt : option Stmt) : string :=
  match lastStmt with
  | Some st =>
      substring 0 (start st) code ++ "return [(" ++
      substring (start st) (String.length code - start st) code ++ ")]"
  | None => ""
  end.

(** [codeRetDeletions]: the positions of the added characters. *)
Definition codeRetDeletions (lastStmt : option Stmt) : list Position :=
  match lastStmt ≫= loc with
  | None => []
  | Some (start, end_) =>
      let n := String.length "return [(" in
      let column0 := if decide (line start = line end_) then n else 0 in
      ((fun k => mkPosition (line start) (column start + k)) <$> seq 0 n) ++
      ((fun k => mkPosition (line end_) (column end_ + (column0 + k))) <$>
         seq 0 (String.length ")]"))
  end.

Definition isSyntaxError (e : Error) : bool :=
  String.eqb (errName e) "SyntaxError".

(** Second strategy: [await evaluate(code); return []]. *)
Definition evalDirect (code : string) (s : t) : option (list JSValue) * t :=
  match evaluate code [] with
  | Normal _ => (Some [], s)
  | Throw e => (None, emit LError (VError e) s)
  end.

(** The two strategies; [None] is [null], [Some []] and [Some [v]] are
    the arrays the source returns. *)
Definition evalStrategies (code : string) (lastStmt : option Stmt) (s : t)
  : option (list JSValue) * t :=
  let script := codeRet code lastStmt in
  if negb (String.eqb script "") then
    match evaluate script (codeRetDeletions lastStmt) with
    | Normal (VArray [v]) => (Some [v], s)
    | Normal ret2 =>
        (None, emit LError (VError (mkError "Error" (toString ret2))) s)
    | Throw e =>
        if isSyntaxError e then evalDirect code (emit LDebug (VError e) s)
        else (None, emit LError (VError e) s)
    end
  else evalDirect code s.

(** [eval()]. *)
Definition eval (s : t) : t :=
  let code := buffer s in
  let length := length (history s) in
  let s1 := setHistoryIndex (Z.of_nat length)
              (setHistory (take (length - 1) (history s) ++ [code; ""])
                 (setBuffer "" s)) in
  let s2 := emit LLog (VString code) s1 in
  match parse code with
  | Throw e => emit LError (VError e) s2
  | Normal ast =>
      let '(ret, s3) := evalStrategies code (last ast) s2 in
      match ret with
      | None => s3
      | Some l => emit LLog (default VUndefined (l !! 0)) s3
      end
  end.

Record KeyEvent : Type := mkKeyEvent { modifiers : list string; key : string }.

Definition arrowOf (key : string) : option Arrow :=
  if String.eqb key "ArrowUp" then Some ArrowUp
  else if String.eqb key "ArrowDown" then Some ArrowDown
  else None.

(** The [onKey] listener; the boolean tells whether the event was
    consumed ([block = true; consumeEvent(domEvent)]). *)
Definition onKey (ev : KeyEvent) (s : t) : t * bool :=
  match modifiers ev with
  | _ :: _ => (s, false)
  | [] =>
      if String.eqb (key ev) "Enter" then (eval s, true)
      else match arrowOf (key ev) with
           | Some a =>
               if editingMultiline s then (s, false) else (navigate a s, true)
           | None => (s, false)
           end
  end.

Definition kill (s : t) : Completion unit * t :=
  let '(r, b) := Pseudo.kill (base s) in (r, setBase b s).

End Console.
End DeveloperConsole.

(** ** Child processes ([node:child_process]), as far as sessions use them *)

Module ChildProcess.

Inductive StreamKind : Type := Readable | Writable | Duplex.

Record Stream : Type := mkStream { kind : StreamKind; chunks : list string }.

(** [stream instanceof Writable]; a duplex stream passes the test. *)
Definition instanceofWritable (s : Stream) : bool :=
  match kind s with Readable => false | _ => true end.

Inductive StdioOption : Type := Pipe | Ignore.

(** [running]: the process has not exited yet. *)
Record t : Type := mkProcess {
  pid : Z;
  running : bool;
  signalsSent : list string;
  stdio : list (option Stream);
}.

Definition kindOfFd (fd : nat) : StreamKind :=
  match fd with 0 => Writable | 1 | 2 => Readable | _ => Duplex end.

(** [spawn(..., { stdio })]: one stream per ["pipe"] entry. *)
Definition spawn (pid : Z) (options : list StdioOption) : t :=
  mkProcess pid true []
    (imap (fun fd o => match o with
                       | Pipe => Some (mkStream (kindOfFd fd) [])
                       | Ignore => None
                       end) options).

(** [subprocess.kill()]: true when the signal was delivered, false once
    the process is gone. *)
Definition kill (p : t) : bool * t :=
  if running p
  then (true, mkProcess (pid p) true (signalsSent p ++ ["SIGTERM"]) (stdio p))
  else (false, p).

(** The process exits. *)
Definition exits (p : t) : t :=
  mkProcess (pid p) false (signalsSent p) (stdio p).

(** Modelled from the spec: [writePromise] of [util.ts] is not among the
    sources; a write appends the chunk to the stream. *)
Definition writePromise (fd : nat) (text : string) (p : t) : t :=
  mkProcess (pid p) (running p) (signalsSent p)
    (alter (fmap (fun st => mkStream (kind st) (chunks st ++ [text]))) fd (stdio p)).

(** The error of a write to a stream whose other end is gone. *)
Definition writeFailure : Error := mkError "Error" "write EPIPE".

(** Modelled from the spec: a write succeeds unless the stream write
    itself fails.  The streams of a process end with the process: a write
    to a stream of a process that has exited fails, and the chunk is not
    taken. *)
Definition write (fd : nat) (text : string) (p : t) : Completion unit * t :=
  if running p then (Normal tt, writePromise fd text p)
  else (Throw writeFailure, p).

(** What was written to stream [fd] so far. *)
Definition writtenTo (fd : nat) (p : t) : list string :=
  match stdio p !! fd with
  | Some (Some st) => chunks st
  | _ => []
  end.

End ChildProcess.

(** [code ?? signal ?? NaN]. *)
Definition codeOrSignal (code : option Z) (signal : option string) : ExitValue :=
  match code with
  | Some c => ExitCode (Num c)
  | None => match signal with
            | Some sg => ExitSignal sg
            | None => ExitCode NaN
            end
  end.

(** The text of a number in a template literal, for integers below
    [10^21] in absolute value (beyond that JavaScript switches to
    exponent notation). *)
Definition numberToString (n : Z) : string := pretty n.

Definition LF : string := String (ascii_of_nat 10) EmptyString.

(** ** [UnixPseudoterminal] *)

Module UnixPseudoterminal.

(** [shell] is the settled spawn promise. *)
Record t : Type := mkUnix { shell : Completion ChildProcess.t }.

Definition cmdio : nat := 3.

Definition create (pythonExecutable : option string) (pid : Z) : t :=
  match pythonExecutable with
  | None =>
      mkUnix (Throw (mkError "Error" "errors.no-Python-to-spawn-Unix-pseudoterminal"))
  | Some _ =>
      mkUnix (Normal (ChildProcess.spawn pid
        [ChildProcess.Pipe; ChildProcess.Pipe; ChildProcess.Pipe; ChildProcess.Pipe]))
  end.

(** [if (!(await this.shell).kill()) throw new Error(...)]. *)
Definition kill (s : t) : Completion unit * t :=
  match shell s with
  | Throw e => (Throw e, s)
  | Normal p =>
      let '(ok, p') := ChildProcess.kill p in
      if negb ok
      then (Throw (mkError "Error" "errors.error-killing-pseudoterminal"),
            mkUnix (Normal p'))
      else (Normal tt, mkUnix (Normal p'))
  end.

(** [resize(columns, rows)]: the fourth stdio stream must be a
    [Writable]; the line is written to it, and a failing write is the
    failure of [resize]. *)
Definition resize (columns rows : Z) (s : t) : Completion unit * t :=
  match shell s with
  | Throw e => (Throw e, s)
  | Normal p =>
      match ChildProcess.stdio p !! cmdio with
      | Some (Some st) =>
          if ChildProcess.instanceofWritable st
          then
            let '(r, p') :=
              ChildProcess.write cmdio
                (numberToString columns ++ "x" ++ numberToString rows ++ LF) p in
            (r, mkUnix (Normal p'))
          else (Throw (mkError "TypeError" "[object Object]"), s)
      | Some None => (Throw (mkError "TypeError" "null"), s)
      | None => (Throw (mkError "TypeError" "undefined"), s)
      end
  end.

(** The value [onExit] resolves to on the shell's [exit] event. *)
Definition onShellExit (code : option Z) (signal : option string) : ExitValue :=
  codeOrSignal code signal.

End UnixPseudoterminal.

(** ** [WindowsPseudoterminal] *)

Module WindowsPseudoterminal.

(** [String.prototype.trim] and [parseInt(_, 10)] on ASCII text. *)
Definition isWhiteSpace (c : ascii) : bool :=
  let n := nat_of_ascii c in
  (n =? 9) || (n =? 10) || (n =? 11) || (n =? 12) || (n =? 13) || (n =? 32).

Fixpoint dropWhile {A} (f : A -> bool) (l : list A) : list A :=
  match l with
  | [] => []
  | x :: r => if f x then dropWhile f r else l
  end.

Definition trim (s : string) : string :=
  string_of_list_ascii
    (rev (dropWhile isWhiteSpace
       (rev (dropWhile isWhiteSpace (list_ascii_of_string s))))).

Definition digitOf (c : ascii) : option Z :=
  let n := nat_of_ascii c in
  if (48 <=? n) && (n <=? 57) then Some (Z.of_nat (n - 48)) else None.

(** The value of the longest prefix of decimal digits, if there is one. *)
Fixpoint digits (l : list ascii) (acc : option Z) : option Z :=
  match l with
  | [] => acc
  | c :: r =>
      match digitOf c with
      | Some d => digits r (Some (10 * default 0%Z acc + d)%Z)
      | None => acc
      end
  end.

(** [parseInt(s, 10)]: leading white space, an optional sign, then
    digits; [NaN] without a digit.  (Exact below [2^53].) *)
Definition parseInt10 (s : string) : JSNumber :=
  let l := dropWhile isWhiteSpace (list_ascii_of_string s) in
  let '(sign, l') :=
    match l with
    | c :: r =>
        if Ascii.eqb c "-" then ((-1)%Z, r)
        else if Ascii.eqb c "+" then (1%Z, r)
        else (1%Z, l)
    | [] => (1%Z, l)
    end in
  match digits l' None with
  | Some n => Num (sign * n)
  | None => NaN
  end.

Inductive Note : Type :=
| Debug (e : Error)
| Warn (e : Error).

(** The file system, the console and the pending timers (delay and the
    temp file to clean up). *)
Record World : Type := mkWorld {
  files : gmap string string;
  console : list Note;
  timers : list (Z * string);
}.

Definition readFile (path : string) (w : World) : Completion string :=
  match files w !! path with
  | Some contents => Normal contents
  | None => Throw (mkError "Error" "ENOENT")
  end.

Record t : Type := mkWindows {
  shell : Completion ChildProcess.t;
  codeTmp : string;
  resizer : option ChildProcess.t;
  conhost : bool;
}.

Definition kill (s : t) : Completion unit * t :=
  match shell s with
  | Throw e => (Throw e, s)
  | Normal p =>
      let '(ok, p') := ChildProcess.kill p in
      if negb ok
      then (Throw (mkError "Error" "errors.error-killing-pseudoterminal"),
            mkWindows (Normal p') (codeTmp s) (resizer s) (conhost s))
      else (Normal tt, mkWindows (Normal p') (codeTmp s) (resizer s) (conhost s))
  end.

Definition resize (columns rows : Z) (s : t) : Completion unit * t :=
  match resizer s with
  | None => (Throw (mkError "Error" "errors.resizer-disabled"), s)
  | Some r =>
      let '(o, r') :=
        ChildProcess.write 0
          (numberToString columns ++ "x" ++ numberToString rows ++ LF) r in
      (o, mkWindows (shell s) (codeTmp s) (Some r') (conhost s))
  end.

Section Exit.
(** [TERMINAL_EXIT_CLEANUP_WAIT] of [magic.ts], which is not among the
    sources. *)
Variable TERMINAL_EXIT_CLEANUP_WAIT : Z.

(** The [exit] listener of the shell: the value [onExit] resolves to and
    the world after it.  The [finally] block starts the cleanup task,
    which first sleeps. *)
Definition onShellExit (path : string) (conCode : option Z)
    (signal : option string) (w : World) : ExitValue * World :=
  let finally_ (w : World) :=
    mkWorld (files w) (console w)
      (timers w ++ [(TERMINAL_EXIT_CLEANUP_WAIT, path)]) in
  match readFile path w with
  | Normal contents =>
      let termCode := parseInt10 (trim contents) in
      (match termCode with
       | NaN => codeOrSignal conCode signal
       | Num _ => ExitCode termCode
       end, finally_ w)
  | Throw e =>
      (codeOrSignal conCode signal,
       finally_ (mkWorld (files w) (console w ++ [Debug e]) (timers w)))
  end.
End Exit.

(** The cleanup task once its sleep is over; [outcome] is how
    [codeTmp.cleanup()] ends.  An error is caught and logged. *)
Definition cleanup (outcome : Completion unit) (w : World) : World :=
  match timers w with
  | [] => w
  | (_, path) :: rest =>
      match outcome with
      | Normal _ => mkWorld (delete path (files w)) (console w) rest
      | Throw e => mkWorld (files w) (console w ++ [Warn e]) rest
      end
  end.

End WindowsPseudoterminal.

(** ** [asyncDebounce] and the resize of [XtermTerminalEmulator] *)

Module Emulator.

(** [promises]: the array of [asyncDebounce], holding the callers not
    settled yet.  [timer]: the state of obsidian's [debounce(cb, timeout,
    false)], armed with the latest arguments.  [inflight]: callbacks that
    wait for the session's [resize].  [session]: the settled [#pty]. *)
Record t : Type := mkEmulator {
  promises : list nat;
  timer : option (Z * Z);
  inflight : list (Z * Z);
  session : Completion unit;
  nextCaller : nat;
  settledCallers : list (nat * Completion unit);
  ptyResizes : list (Z * Z);
  terminalResizes : list (Z * Z);
}.

Definition create (session : Completion unit) : t :=
  mkEmulator [] None [] session 0 [] [] [].

(** The function returned by [asyncDebounce]: push the caller, call the
    debouncer; an armed debouncer only takes the new arguments. *)
Definition resizeDebounced (columns rows : Z) (e : t) : nat * t :=
  (nextCaller e,
   mkEmulator (promises e ++ [nextCaller e]) (Some (columns, rows)) (inflight e)
     (session e) (S (nextCaller e)) (settledCallers e) (ptyResizes e)
     (terminalResizes e)).

(** [resize()]: nothing happens without proposed dimensions. *)
Definition resize (dim : option (Z * Z)) (e : t) : nat * t :=
  match dim with
  | None =>
      (nextCaller e,
       mkEmulator (promises e) (timer e) (inflight e) (session e)
         (S (nextCaller e)) (settledCallers e ++ [(nextCaller e, Normal tt)])
         (ptyResizes e) (terminalResizes e))
  | Some (columns, rows) => resizeDebounced columns rows e
  end.

(** [for (const promise of promises.splice(0)) promise.resolve/reject]. *)
Definition settleAll (o : Completion unit) (e : t) : t :=
  mkEmulator [] (timer e) (inflight e) (session e) (nextCaller e)
    (settledCallers e ++ ((fun p => (p, o)) <$> promises e))
    (ptyResizes e) (terminalResizes e).

(** The timer fires: the callback runs with the latest arguments and
    calls the session's [resize], unless the session failed to start. *)
Definition fire (e : t) : t :=
  match timer e with
  | None => e
  | Some (columns, rows) =>
      let e' := mkEmulator (promises e) None (inflight e) (session e)
                  (nextCaller e) (settledCallers e) (ptyResizes e)
                  (terminalResizes e) in
      match session e with
      | Throw err => settleAll (Throw err) e'
      | Normal _ =>
          mkEmulator (promises e') None (inflight e' ++ [(columns, rows)])
            (session e') (nextCaller e') (settledCallers e')
            (ptyResizes e' ++ [(columns, rows)]) (terminalResizes e')
      end
  end.

(** The session's [resize] of the oldest callback in flight ends with
    [pty]; on success [terminal.resize] is called and ends with [term]. *)
Definition complete (pty term : Completion unit) (e : t) : t :=
  match inflight e with
  | [] => e
  | (columns, rows) :: rest =>
      let e' := mkEmulator (promises e) (timer e) rest (session e)
                  (nextCaller e) (settledCallers e) (ptyResizes e)
                  (terminalResizes e) in
      match pty with
      | Throw err => settleAll (Throw err) e'
      | Normal _ =>
          settleAll term
            (mkEmulator (promises e') (timer e') (inflight e') (session e')
               (nextCaller e') (settledCallers e') (ptyResizes e')
               (terminalResizes e' ++ [(columns, rows)]))
      end
  end.

End Emulator.

(** ** The sessions as instances of the interface *)

#[global] Instance Unix_Pseudoterminal : Pseudoterminal UnixPseudoterminal.t :=
  {| pt_kill := UnixPseudoterminal.kill;
     pt_resize := fun s => Some (fun columns rows => UnixPseudoterminal.resize columns rows s) |}.

#[global] Instance Windows_Pseudoterminal : Pseudoterminal WindowsPseudoterminal.t :=
  {| pt_kill := WindowsPseudoterminal.kill;
     pt_resize := fun s => Some (fun columns rows => WindowsPseudoterminal.resize columns rows s) |}.

#[global] Instance Text_Pseudoterminal : Pseudoterminal TextPseudoterminal.t :=
  {| pt_kill := TextPseudoterminal.kill;
     pt_resize := fun _ => None |}.

#[global] Instance DeveloperConsole_Pseudoterminal
  : Pseudoterminal DeveloperConsole.t :=
  {| pt_kill := DeveloperConsole.kill;
     pt_resize := fun _ => None |}.

(** * Properties *)

(** ** The reference-counted wrapper *)

Module RefFacts.
Import Ref.

(** The sources of successive [dup()] calls exist: the [i]-th duplicate is
    made from one of the [n + i] wrappers present at that time. *)
Fixpoint validDups (n : nat) (srcs : list nat) : Prop :=
  match srcs with
  | [] => True
  | src :: rest => src < n ∧ validDups (S n) rest
  end.

Section Facts.
Context {T : Type} `{Pseudoterminal T}.

Definition exitAt (h : Heap T) (w : nat) : option (Promise.t ExitValue) :=
  exit <$> wrappers h !! w.

(** One family: a single session, a single counter cell holding [c], and
    [n] wrappers that all point to them. *)
Definition Family (h : Heap T) (n : nat) (c : Z) : Prop :=
  length (sessions h) = 1 ∧ cells h = [c] ∧ length (wrappers h) = n ∧
  Forall (λ wr, delegate wr = 0 ∧ ref wr = 0) (wrappers h).

(** No wrapper has observed anything but its own release. *)
Definition Released (h : Heap T) : Prop :=
  Forall (λ wr, exit wr = Promise.Pending ∨
                exit wr = Promise.Fulfilled EXIT_SUCCESS) (wrappers h) ∧
  Forall (λ s, onExit s = Promise.Pending) (sessions h).

Lemma run_app (a b : list Op) (h : Heap T) :
  run (a ++ b) h = run a h ≫= run b.
Proof.
  revert h. induction a as [|o a IH]; intros h; simpl; [done|].
  destruct (step o h) as [h'|]; simpl; [apply IH|done].
Qed.

Lemma family_lookup h n c w :
  Family h n c → w < n →
  ∃ wr s, wrappers h !! w = Some wr ∧ delegate wr = 0 ∧ ref wr = 0 ∧
          sessions h !! 0 = Some s ∧ cells h !! 0 = Some c.
Proof.
  intros (Hs & Hc & Hn & Hall) Hw.
  destruct (lookup_lt_is_Some_2 (wrappers h) w) as [wr Hwr]; [lia|].
  destruct (lookup_lt_is_Some_2 (sessions h) 0) as [s Hs0]; [lia|].
  exists wr, s. rewrite Forall_lookup in Hall.
  destruct (Hall _ _ Hwr) as [-> ->]. rewrite Hc. done.
Qed.

Lemma family_new (t : T) :
  ∃ h, step (New 0) (init t) = Some h ∧ Family h 1 1 ∧ Released h ∧
       calls h = [] ∧ sessions h = sessions (init t).
Proof.
  eexists. split; [reflexivity|]. simpl.
  repeat split; simpl; repeat constructor.
Qed.

Lemma family_dup h n c src :
  Family h n c → Released h → src < n →
  ∃ h', step (Dup src) h = Some h' ∧ Family h' (S n) (c + 1) ∧ Released h' ∧
        calls h' = calls h ∧ sessions h' = sessions h.
Proof.
  intros HF [Hex Hse] Hsrc.
  destruct (family_lookup _ _ _ _ HF Hsrc) as (wr & s & Hwr & Hd & Hr & Hs & Hc).
  destruct HF as (Hs1 & Hc1 & Hn & Hall).
  unfold step, dup, construct. rewrite Hwr. simpl. rewrite Hd, Hr, Hs, Hc. simpl.
  eexists. split; [reflexivity|]. simpl.
  assert (onExit s = Promise.Pending) as Hp.
  { rewrite Forall_lookup in Hse. eauto. }
  repeat split; simpl.
  - done.
  - rewrite Hc1. done.
  - rewrite length_app. simpl. lia.
  - apply Forall_app. split; [done|]. repeat constructor.
  - apply Forall_app. split; [done|]. apply Forall_singleton.
    left. simpl. by rewrite Hp.
  - done.
Qed.

Lemma dups_phase srcs : ∀ h n c,
  Family h n c → Released h → validDups n srcs →
  ∃ h', run (Dup <$> srcs) h = Some h' ∧
        Family h' (n + length srcs) (c + Z.of_nat (length srcs)) ∧ Released h' ∧
        calls h' = calls h ∧ sessions h' = sessions h.
Proof.
  induction srcs as [|src srcs IH]; intros h n c HF HR Hv.
  - exists h. simpl. rewrite Nat.add_0_r, Z.add_0_r. done.
  - destruct Hv as [Hsrc Hv].
    destruct (family_dup _ _ _ _ HF HR Hsrc) as (h1 & Hst & HF1 & HR1 & Hc1 & Hs1).
    destruct (IH _ _ _ HF1 HR1 Hv) as (h2 & Hrun & HF2 & HR2 & Hc2 & Hs2).
    exists h2. rewrite fmap_cons. cbn [run]. rewrite Hst. simpl. split; [done|].
    cbn [length].
    replace (n + S (length srcs)) with (S n + length srcs) by lia.
    replace (c + Z.of_nat (S (length srcs)))%Z
      with (c + 1 + Z.of_nat (length srcs))%Z by lia.
    split_and!; [done|done|congruence|congruence].
Qed.

(** One [kill()] inside a family. *)
Lemma family_kill h n c k :
  Family h n c → k < n →
  ∃ h', step (Kill k) h = Some h' ∧ Family h' n (c - 1) ∧
        realKills 0 h' = realKills 0 h + (if (c - 1 <=? 0)%Z then 1 else 0) ∧
        ((0 < c - 1)%Z →
         sessions h' = sessions h ∧ calls h' = calls h ∧
         ∀ w, exitAt h' w =
              if decide (w = k)
              then Promise.resolve EXIT_SUCCESS <$> exitAt h w
              else exitAt h w).
Proof.
  intros HF Hk.
  destruct (family_lookup _ _ _ _ HF Hk) as (wr & s & Hwr & Hd & Hr & Hs & Hc).
  destruct HF as (Hs1 & Hc1 & Hn & Hall).
  unfold step, kill. rewrite Hwr. simpl. rewrite Hr, Hc. simpl.
  destruct (c - 1 <=? 0)%Z eqn:Hle.
  - rewrite Hd, Hs. simpl. destruct (pt_kill (state s)) as [r st]. simpl.
    eexists. split; [reflexivity|]. unfold Family, realKills. simpl.
    rewrite length_insert, Hc1, List.filter_app, length_app. simpl.
    split_and!; try done. intros. apply Z.leb_le in Hle. lia.
  - eexists. split; [reflexivity|]. unfold Family, realKills, exitAt. simpl.
    rewrite length_insert, Hc1. simpl.
    split_and!; try done; try lia.
    + apply Forall_insert; [done|]. simpl. done.
    + intros _. split_and!; try done. intros w. case_decide as Hwk.
      * subst w. rewrite list_lookup_insert_eq by lia. rewrite Hwr. done.
      * rewrite list_lookup_insert_ne by done. done.
Qed.

(** The count of real kills depends on the number of [kill()] calls
    only: from a counter at [c], the first [c - 1] calls fire nothing and
    every later call fires the session's [kill]. *)
Lemma kills_count ks : ∀ h n c,
  Family h n c → Forall (λ k, k < n) ks →
  ∃ h', run (Kill <$> ks) h = Some h' ∧
        Family h' n (c - Z.of_nat (length ks)) ∧
        realKills 0 h' = realKills 0 h + (length ks - Z.to_nat (c - 1)).
Proof.
  induction ks as [|k ks IH]; intros h n c HF Hks.
  - exists h. simpl. rewrite Z.sub_0_r. split_and!; [done|done|lia].
  - apply Forall_cons in Hks as [Hk Hks].
    destruct (family_kill _ _ _ _ HF Hk) as (h1 & Hst & HF1 & Hcnt & _).
    destruct (IH _ _ _ HF1 Hks) as (h2 & Hrun & HF2 & Hcnt2).
    exists h2. rewrite fmap_cons. cbn [run]. rewrite Hst. simpl.
    split; [done|]. cbn [length].
    replace (c - Z.of_nat (S (length ks)))%Z
      with (c - 1 - Z.of_nat (length ks))%Z by lia.
    split; [done|]. rewrite Hcnt2, Hcnt.
    destruct (c - 1 <=? 0)%Z eqn:Hle;
      [apply Z.leb_le in Hle | apply Z.leb_gt in Hle]; lia.
Qed.

(** While siblings remain, [kill()] only releases the caller: the
    session and the call log stay as they are and each released wrapper
    holds the synthetic success code. *)
Lemma kills_release ks : ∀ h n c,
  Family h n c → Released h → Forall (λ k, k < n) ks →
  (Z.of_nat (length ks) < c)%Z →
  ∃ h', run (Kill <$> ks) h = Some h' ∧ Released h' ∧
        sessions h' = sessions h ∧ calls h' = calls h ∧
        ∀ k, k ∈ ks ∨ exitAt h k = Some (Promise.Fulfilled EXIT_SUCCESS) →
             exitAt h' k = Some (Promise.Fulfilled EXIT_SUCCESS).
Proof.
  induction ks as [|k ks IH]; intros h n c HF HR Hks Hlen.
  - exists h. simpl. split_and!; try done.
    intros k [Hin|Hk]; [by apply elem_of_nil in Hin|done].
  - apply Forall_cons in Hks as [Hk Hks]. cbn [length] in Hlen.
    destruct (family_kill _ _ _ _ HF Hk) as (h1 & Hst & HF1 & _ & Hrel).
    destruct Hrel as (Hs1 & Hc1 & Hex1); [lia|].
    assert (Released h1) as HR1.
    { destruct HR as [Hex Hse]. split; [|by rewrite Hs1].
      apply Forall_lookup. intros w wr1 Hw1.
      pose proof (Hex1 w) as Hw. unfold exitAt in Hw. rewrite Hw1 in Hw.
      simpl in Hw. rewrite Forall_lookup in Hex.
      case_decide; destruct (wrappers h !! w) as [wr0|] eqn:Hw0;
        simpl in Hw; simplify_eq; try rewrite Hw.
      - destruct (Hex _ _ Hw0) as [->| ->]; by right.
      - eauto. }
    destruct (IH _ _ _ HF1 HR1 Hks) as (h2 & Hrun & HR2 & Hs2 & Hc2 & Hex2); [lia|].
    exists h2. rewrite fmap_cons. cbn [run]. rewrite Hst. simpl.
    split_and!; try done; try congruence.
    intros k' Hk'. apply Hex2.
    destruct (decide (k' = k)) as [->|Hne].
    + right. rewrite Hex1. rewrite decide_True by done.
      destruct (family_lookup _ _ _ _ HF Hk) as (wr & s & Hwr & _).
      unfold exitAt. rewrite Hwr. simpl.
      destruct HR as [Hex _]. rewrite Forall_lookup in Hex.
      destruct (Hex _ _ Hwr) as [->| ->]; done.
    + destruct Hk' as [Hin|Hk'].
      * apply elem_of_cons in Hin as [?|Hin]; [done|by left].
      * right. rewrite Hex1. rewrite decide_False by done. done.
Qed.

(** One [kill()] in any heap: the counter goes down by one; above zero
    only the caller's exit future is resolved, otherwise the session's
    [kill] is called and its completion returned. *)
Lemma kill_releases_or_fires (h : Heap T) (w : nat) (wr : Wrapper) (c : Z)
    (s : Session T) :
  wrappers h !! w = Some wr → cells h !! ref wr = Some c →
  sessions h !! delegate wr = Some s →
  ∃ r h', kill w h = Some (r, h') ∧
          cells h' = <[ref wr := (c - 1)%Z]> (cells h) ∧
          if (c - 1 <=? 0)%Z
          then r = fst (pt_kill (state s)) ∧ wrappers h' = wrappers h ∧
               calls h' = calls h ++ [CallKill (delegate wr)]
          else r = Normal tt ∧ sessions h' = sessions h ∧ calls h' = calls h ∧
               exitAt h' w = Some (Promise.resolve EXIT_SUCCESS (exit wr)).
Proof.
  intros Hw Hc Hs. unfold kill. rewrite Hw. simpl. rewrite Hc. simpl.
  destruct (c - 1 <=? 0)%Z.
  - rewrite Hs. simpl. destruct (pt_kill (state s)) as [r st].
    by eexists _, _.
  - eexists _, _. split_and!; try done. unfold exitAt. simpl.
    rewrite list_lookup_insert_eq; [done|]. by eapply lookup_lt_Some.
Qed.

(** A wrapper made after the session has exited sees the exit at once. *)
Lemma late_wrapper_sees_exit (h : Heap T) (d : nat) (s : Session T) :
  sessions h !! d = Some s →
  ∃ w h', construct (OfSession d) h = Some (w, h') ∧ exitAt h' w = Some (onExit s).
Proof.
  intros Hs. unfold construct. rewrite Hs. simpl. eexists _, _.
  split; [done|]. unfold exitAt. simpl.
  rewrite lookup_app_r by done. rewrite Nat.sub_diag. simpl.
  by destruct (onExit s).
Qed.

(** A settled exit future of a wrapper is never changed again. *)
Lemma settled_stable (op : Op) (h h' : Heap T) (w : nat) (p : Promise.t ExitValue) :
  step op h = Some h' → exitAt h w = Some p → Promise.settled p = true →
  exitAt h' w = Some p.
Proof.
  unfold exitAt. intros Hst Hw Hp.
  destruct (wrappers h !! w) as [wr|] eqn:Hwr; simplify_eq/=.
  assert (w < length (wrappers h)) as Hlt by (eapply lookup_lt_Some; done).
  destruct op as [d|src|k|d o];
    unfold step, dup, construct, kill, sessionExit in Hst; simpl in Hst.
  - destruct (sessions h !! d); simplify_eq/=.
    rewrite lookup_app_l by done. by rewrite Hwr.
  - destruct (wrappers h !! src) as [ws|]; simplify_eq/=.
    destruct (sessions h !! delegate ws); simplify_eq/=.
    destruct (cells h !! ref ws); simplify_eq/=.
    rewrite lookup_app_l by done. by rewrite Hwr.
  - destruct (wrappers h !! k) as [wk|] eqn:Hk; simplify_eq/=.
    destruct (cells h !! ref wk) as [c|]; simplify_eq/=.
    destruct (c - 1 <=? 0)%Z.
    + destruct (sessions h !! delegate wk); simplify_eq/=.
      destruct (pt_kill _). simplify_eq/=. by rewrite Hwr.
    + simplify_eq/=. destruct (decide (w = k)) as [->|Hne].
      * rewrite list_lookup_insert_eq by done.
        assert (wk = wr) as -> by congruence. simpl.
        by destruct (exit wr).
      * rewrite list_lookup_insert_ne by done. by rewrite Hwr.
  - destruct (sessions h !! d) as [s|]; simplify_eq/=.
    destruct (onExit s); simplify_eq/=; try by rewrite Hwr.
    rewrite list_lookup_fmap, Hwr. simpl. unfold forward.
    case_decide; simpl; [|done]. by destruct (exit wr).
Qed.

(** C1 (amended): [kill()] decrements the shared counter.  After [N]
    [dup()] calls (made on any wrappers of the family) the counter is
    [N + 1]; whatever the order in which wrappers are killed, each of the
    first [N] [kill()] calls leaves the session alone and resolves the
    caller's own exit future with [EXIT_SUCCESS], and the real [kill] of
    the session fires on the [(N + 1)]-th call: the number of real kills
    after [length ks] calls is [length ks - N], so it is one exactly when
    every wrapper of the family has been killed once. *)
Theorem real_kill_after_last_release (t : T) (srcs ks : list nat) :
  validDups 1 srcs → Forall (λ k, k < S (length srcs)) ks →
  ∃ h, run (New 0 :: (Dup <$> srcs) ++ (Kill <$> ks)) (init t) = Some h ∧
       cells h = [(Z.of_nat (S (length srcs)) - Z.of_nat (length ks))%Z] ∧
       realKills 0 h = length ks - length srcs ∧
       (length ks ≤ length srcs →
        sessions h = sessions (init t) ∧
        ∀ k, k ∈ ks → exitAt h k = Some (Promise.Fulfilled EXIT_SUCCESS)).
Proof.
  intros Hv Hks.
  destruct (family_new t) as (h1 & Hst & HF1 & HR1 & Hc1 & Hs1).
  destruct (dups_phase _ _ _ _ HF1 HR1 Hv) as (h2 & Hrun2 & HF2 & HR2 & Hc2 & Hs2).
  destruct (kills_count ks _ _ _ HF2 Hks) as (h3 & Hrun3 & HF3 & Hcnt).
  exists h3. cbn [run]. rewrite Hst. simpl. rewrite run_app, Hrun2. simpl.
  split; [done|]. split.
  { destruct HF3 as (_ & -> & _). f_equal. lia. }
  split.
  { rewrite Hcnt. unfold realKills at 1. rewrite Hc2, Hc1. simpl. lia. }
  intros Hle.
  destruct (kills_release ks _ _ _ HF2 HR2 Hks) as (h3' & Hrun3' & _ & Hs3 & _ & Hex);
    [lia|].
  assert (h3' = h3) as -> by congruence.
  split; [by rewrite Hs3, Hs2, Hs1|].
  intros k Hk. apply Hex. by left.
Qed.

(** C9 (amended): when the delegate's exit future settles, a wrapper
    whose own exit future is still pending takes the same outcome (the
    same value, or the same error), whether or not [kill()] was ever
    called on it; a wrapper already released by its own [kill()] keeps
    the synthetic success code; and once settled, the wrapper's exit
    future is not changed by any later operation. *)
Theorem exit_follows_delegate (h : Heap T) (d w : nat) (s : Session T)
    (wr : Wrapper) (o : Promise.t ExitValue) :
  sessions h !! d = Some s → onExit s = Promise.Pending →
  wrappers h !! w = Some wr → delegate wr = d →
  Promise.settled o = true →
  ∃ h', sessionExit d o h = Some h' ∧
        exitAt h' w = Some (Promise.settle o (exit wr)) ∧
        (exit wr = Promise.Pending → exitAt h' w = Some o) ∧
        ∀ op h'', step op h' = Some h'' → exitAt h'' w = exitAt h' w.
Proof.
  intros Hs Hp Hw Hd Ho. unfold sessionExit. rewrite Hs. simpl. rewrite Hp.
  eexists. split; [reflexivity|].
  assert (exitAt
    {| sessions := <[d:=mkSession (state s) o]> (sessions h); cells := cells h;
       wrappers := forward d o <$> wrappers h; calls := calls h |} w
    = Some (Promise.settle o (exit wr))) as Hex.
  { unfold exitAt. simpl. rewrite list_lookup_fmap, Hw. simpl.
    unfold forward. rewrite decide_True by done. done. }
  split; [done|]. split.
  { intros Hpend. rewrite Hex, Hpend. done. }
  intros op h'' Hst. rewrite Hex. eapply settled_stable; [done..|].
  destruct (exit wr); simpl; done.
Qed.

(** C10: when the delegate session defines no [resize], the wrapper's
    [resize(columns, rows)] returns [undefined] and the heap, the
    delegate included, is what it was; when the delegate defines
    [resize], that method is called once with the same [columns] and
    [rows] and its completion is the wrapper's. *)
Theorem resize_delegates (h : Heap T) (w : nat) (wr : Wrapper) (s : Session T)
    (columns rows : Z) :
  wrappers h !! w = Some wr → sessions h !! delegate wr = Some s →
  match pt_resize (state s) with
  | None => resize w columns rows h = Some (Normal UNDEFINED, h)
  | Some f =>
      resize w columns rows h =
      Some (fst (f columns rows),
            {| sessions := <[delegate wr := mkSession (snd (f columns rows)) (onExit s)]>
                             (sessions h);
               cells := cells h;
               wrappers := wrappers h;
               calls := calls h ++ [CallResize (delegate wr) columns rows] |})
  end.
Proof.
  intros Hw Hs. unfold resize. rewrite Hw. simpl. rewrite Hs. simpl.
  destruct (pt_resize (state s)) as [f|]; [|done].
  by destruct (f columns rows).
Qed.

End Facts.

(** The console session the plugin wraps, and a Unix session, for the
    concrete scenarios below. *)
Definition console0 : DeveloperConsole.t := DeveloperConsole.create [].
Definition unix0 : UnixPseudoterminal.t :=
  UnixPseudoterminal.create (Some "python3") 4242.

Definition consoleHeap : Heap DeveloperConsole.t :=
  {| sessions := [mkSession console0 Promise.Pending];
     cells := [2%Z];
     wrappers := [mkWrapper 0 0 Promise.Pending; mkWrapper 0 0 Promise.Pending];
     calls := [] |}.

Definition unixHeap : Heap UnixPseudoterminal.t :=
  {| sessions := [mkSession unix0 Promise.Pending];
     cells := [1%Z];
     wrappers := [mkWrapper 0 0 Promise.Pending];
     calls := [] |}.

Example consoleHeap_reached : run [New 0; Dup 0] (init console0) = Some consoleHeap.
Proof. reflexivity. Qed.

Example unixHeap_reached : run [New 0] (init unix0) = Some unixHeap.
Proof. reflexivity. Qed.

Lemma real_kill_after_last_release_witness :
  ∃ h, run (New 0 :: (Dup <$> [0; 1]) ++ (Kill <$> [2; 0; 1])) (init console0) = Some h ∧
       cells h = [(Z.of_nat (S (length [0; 1])) - Z.of_nat (length [2; 0; 1]))%Z] ∧
       realKills 0 h = length [2; 0; 1] - length [0; 1] ∧
       (length [2; 0; 1] ≤ length [0; 1] →
        sessions h = sessions (init console0) ∧
        ∀ k, k ∈ [2; 0; 1] → exitAt h k = Some (Promise.Fulfilled EXIT_SUCCESS)).
Proof.
  apply (real_kill_after_last_release console0 [0; 1] [2; 0; 1]).
  - simpl. lia.
  - repeat constructor; lia.
Defined.

(** C1 as stated fails: with [N = 1] duplicate, the [N]-th (first)
    [kill()] call fires no real kill, whichever wrapper makes it; the
    second call does. *)
Lemma nth_kill_does_not_fire :
  ∃ h1 h1' h2,
    run [New 0; Dup 0; Kill 0] (init console0) = Some h1 ∧ realKills 0 h1 = 0 ∧
    run [New 0; Dup 0; Kill 1] (init console0) = Some h1' ∧ realKills 0 h1' = 0 ∧
    run [New 0; Dup 0; Kill 1; Kill 0] (init console0) = Some h2 ∧ realKills 0 h2 = 1.
Proof. do 3 eexists. repeat split; reflexivity. Qed.

Lemma exit_follows_delegate_witness :
  ∃ h', sessionExit 0 (Promise.Fulfilled (ExitCode (Num 7))) consoleHeap = Some h' ∧
        exitAt h' 1 = Some (Promise.settle (Promise.Fulfilled (ExitCode (Num 7)))
                              (exit (mkWrapper 0 0 Promise.Pending))) ∧
        (exit (mkWrapper 0 0 Promise.Pending) = Promise.Pending →
         exitAt h' 1 = Some (Promise.Fulfilled (ExitCode (Num 7)))) ∧
        ∀ op h'', step op h' = Some h'' → exitAt h'' 1 = exitAt h' 1.
Proof.
  apply (exit_follows_delegate consoleHeap 0 1 (mkSession console0 Promise.Pending)
           (mkWrapper 0 0 Promise.Pending) (Promise.Fulfilled (ExitCode (Num 7))));
    reflexivity.
Defined.

(** C9 as stated fails: wrapper 0 is released while its duplicate remains;
    when the session later exits on a signal, the duplicate reports the
    signal and wrapper 0 still reports the synthetic success code. *)
Lemma released_wrapper_keeps_success_code :
  ∃ h, run [New 0; Dup 0; Kill 0; Kill 1;
            Exit 0 (Promise.Fulfilled (ExitSignal "SIGTERM"))] (init console0) = Some h ∧
       (onExit <$> sessions h !! 0) = Some (Promise.Fulfilled (ExitSignal "SIGTERM")) ∧
       exitAt h 1 = Some (Promise.Fulfilled (ExitSignal "SIGTERM")) ∧
       exitAt h 0 = Some (Promise.Fulfilled EXIT_SUCCESS) ∧
       exitAt h 0 ≠ Some (Promise.Fulfilled (ExitSignal "SIGTERM")).
Proof. eexists. repeat split; try reflexivity. discriminate. Qed.

Lemma resize_delegates_witness :
  resize 0 80 24 unixHeap =
  Some (fst (UnixPseudoterminal.resize 80 24 unix0),
        {| sessions := <[0 := mkSession (snd (UnixPseudoterminal.resize 80 24 unix0))
                                Promise.Pending]> (sessions unixHeap);
           cells := cells unixHeap;
           wrappers := wrappers unixHeap;
           calls := calls unixHeap ++ [CallResize 0 80 24] |}).
Proof.
  exact (resize_delegates unixHeap 0 (mkWrapper 0 0 Promise.Pending)
           (mkSession unix0 Promise.Pending) 80 24 eq_refl eq_refl).
Defined.

Example resize_without_member :
  resize 1 80 24 consoleHeap = Some (Normal UNDEFINED, consoleHeap).
Proof. reflexivity. Qed.

End RefFacts.

(** ** The in-process sessions *)

(** A scripting context that knows two programs, for the concrete
    scenarios: [1+1], whose rewritten form returns [[2]], and [let x = 1],
    whose rewritten form [return [(let x = 1)]] is a syntax error and which
    evaluates to [undefined] on its own. *)
Definition twoPrograms : Collaborators :=
  {| normalizeText := fun text => text;
     formatLog := fun _ => "";
     renderBuffer := fun value => value;
     bufferWrite := fun data value => (value ++ data)%string;
     parse := fun code =>
       if String.eqb code "1+1"
       then Normal [mkStmt 0 (Some (mkPosition 1 0, mkPosition 1 3))]
       else if String.eqb code "let x = 1"
       then Normal [mkStmt 0 (Some (mkPosition 1 0, mkPosition 1 9))]
       else Throw (mkError "SyntaxError" "Unexpected token");
     evaluate := fun script _ =>
       if String.eqb script "return [(1+1)]" then Normal (VArray [VNumber (Num 2)])
       else if String.eqb script "let x = 1" then Normal VUndefined
       else Throw (mkError "SyntaxError" "Unexpected token");
     toString := fun _ => "" |}.

Module PseudoFacts.

(** A session of the family: one of the two subclasses of the abstract
    class, with [pipe] dispatched on it. *)
Inductive Member : Type :=
| Text (s : TextPseudoterminal.t)
| Console (s : DeveloperConsole.t).

Definition baseOf (m : Member) : Pseudo.Base :=
  match m with
  | Text s => TextPseudoterminal.base s
  | Console s => DeveloperConsole.base s
  end.

Definition pipeOf `{Collaborators} (term : Xterm.Terminal) (m : Member)
  : Completion unit * Member * Xterm.Terminal :=
  match m with
  | Text s =>
      let '(r, s', term') := TextPseudoterminal.pipe term s in (r, Text s', term')
  | Console s =>
      let '(r, s', term') := DeveloperConsole.pipe term s in (r, Console s', term')
  end.

Section Facts.
Context `{Collaborators}.

(** C2: on a session that has exited, [pipe(terminal)] throws and leaves
    the terminal as it was (no addon loaded, no listener registered,
    nothing written) and the session as it was; this holds for the method
    of the abstract class and for both subclasses.  On a session that has
    not exited, [pipe] returns, the terminal is appended to the session's
    terminals and carries the disposer addon. *)
Theorem pipe_guard (term : Xterm.Terminal) (b : Pseudo.Base) (m : Member) :
  (Pseudo.exited b = true →
   Pseudo.pipe term b = (Throw (mkError "Error" ""), b, term)) ∧
  (Pseudo.exited (baseOf m) = true →
   pipeOf term m = (Throw (mkError "Error" ""), m, term)) ∧
  (Pseudo.exited b = false →
   ∃ b' term', Pseudo.pipe term b = (Normal tt, b', term') ∧
     Pseudo.terminals b' = Pseudo.terminals b ++ [Xterm.handle term] ∧
     Xterm.addons term' = Xterm.addons term ++ [[Xterm.RemoveFromTerminals]]) ∧
  (Pseudo.exited (baseOf m) = false →
   ∃ m' term', pipeOf term m = (Normal tt, m', term') ∧
     Pseudo.terminals (baseOf m') =
       Pseudo.terminals (baseOf m) ++ [Xterm.handle term] ∧
     Xterm.addons term ++ [[Xterm.RemoveFromTerminals]] `prefix_of` Xterm.addons term').
Proof.
  split_and!.
  - intros Hx. unfold Pseudo.pipe. by rewrite Hx.
  - destruct m as [[b0 text]|s]; simpl; intros Hx.
    + unfold TextPseudoterminal.pipe, Pseudo.pipe. simpl. by rewrite Hx.
    + unfold DeveloperConsole.pipe, Pseudo.pipe. rewrite Hx. by destruct s.
  - intros Hx. unfold Pseudo.pipe. rewrite Hx. by eexists _, _.
  - destruct m as [[b0 text]|s]; simpl; intros Hx.
    + unfold TextPseudoterminal.pipe, Pseudo.pipe. simpl. rewrite Hx.
      eexists _, _. split_and!; [done..|]. simpl. done.
    + unfold DeveloperConsole.pipe, Pseudo.pipe. rewrite Hx.
      eexists _, _. split_and!; [done..|]. simpl. by eexists.
Qed.

End Facts.

Definition term0 : Xterm.Terminal := Xterm.mkTerminal 0 [] [] [].

Definition liveConsole : DeveloperConsole.t := DeveloperConsole.create [].
Definition deadConsole : DeveloperConsole.t := snd (DeveloperConsole.kill liveConsole).

Lemma pipe_guard_witness :
  pipeOf (H := twoPrograms) term0 (Console deadConsole)
    = (Throw (mkError "Error" ""), Console deadConsole, term0) ∧
  ∃ m' term', pipeOf (H := twoPrograms) term0 (Console liveConsole) = (Normal tt, m', term') ∧
     Pseudo.terminals (baseOf m') =
       Pseudo.terminals (baseOf (Console liveConsole)) ++ [Xterm.handle term0] ∧
     Xterm.addons term0 ++ [[Xterm.RemoveFromTerminals]] `prefix_of` Xterm.addons term'.
Proof.
  split.
  - exact (proj1 (proj2 (pipe_guard (H := twoPrograms) term0 Pseudo.create
                           (Console deadConsole))) eq_refl).
  - exact (proj2 (proj2 (proj2 (pipe_guard (H := twoPrograms) term0 Pseudo.create
                                   (Console liveConsole)))) eq_refl).
Defined.

Example pipe_on_live_console :
  pipeOf (H := twoPrograms) term0 (Console liveConsole) =
  (Normal tt,
   Console (DeveloperConsole.mkConsole (Pseudo.mkBase false [0] Promise.Pending)
              "" [""] 0 [0] [] []),
   Xterm.mkTerminal 0 [[Xterm.RemoveFromTerminals]; [Xterm.UnsetEditor]]
     [Xterm.OnData; Xterm.OnKey; Xterm.OnResize] [""; ""]).
Proof. reflexivity. Qed.

End PseudoFacts.

(** ** The developer console: evaluation and history *)

Module ConsoleFacts.
Import DeveloperConsole.

Definition arrowName (a : Arrow) : string :=
  match a with ArrowUp => "ArrowUp" | ArrowDown => "ArrowDown" end.

Definition arrowStep (a : Arrow) : Z :=
  match a with ArrowDown => 1 | ArrowUp => -1 end.

(** A console with history [["a"; "b"; ""]] and the index on the open
    entry. *)
Definition threeEntries : t :=
  mkConsole Pseudo.create "" ["a"; "b"; ""] 2 [] [] [].

Definition typed (code : string) : t :=
  mkConsole Pseudo.create code [code] 0 [] [] [].

Section Facts.
Context `{Collaborators}.




(** What [eval()] does to the history: the buffer text closes the open
    entry, a new open entry follows, the index points to it, and the
    buffer is empty. *)
Lemma eval_history (s : t) :
  history (eval s) = take (length (history s) - 1) (history s) ++ [buffer s; ""] ∧
  historyIndex (eval s) = Z.of_nat (length (history s)) ∧
  buffer (eval s) = "".
Proof.
  unfold eval. destruct (parse (buffer s)) as [ast|e]; [|done].
  unfold evalStrategies, evalDirect.
  destruct (negb _); repeat (case_match; simplify_eq/=; try done).
Qed.


Lemma eval_parse_error (s : t) (e : Error) :
  parse (buffer s) = Throw e →
  console (eval s) =
  console s ++ [mkEntry LLog (VString (buffer s)); mkEntry LError (VError e)].
Proof. intros Hp. unfold eval. rewrite Hp. simpl. by rewrite <- app_assoc. Qed.

(** A program without statements is evaluated directly. *)
Lemma eval_empty_program (s : t) (r : JSValue) :
  parse (buffer s) = Normal [] → evaluate (buffer s) [] = Normal r →
  console (eval s) =
  console s ++ [mkEntry LLog (VString (buffer s)); mkEntry LLog VUndefined].
Proof.
  intros Hp He. unfold eval. rewrite Hp. simpl.
  unfold evalStrategies, evalDirect. simpl. rewrite He. simpl.
  by rewrite <- app_assoc.
Qed.

(** [at] after JavaScript's remainder reads the entry at the mathematical
    residue: a negative remainder counts from the end. *)
Lemma at_rem {A} (l : list A) (x : Z) :
  l ≠ [] →
  at_ l (Z.rem x (Z.of_nat (length l))) = l !! Z.to_nat (x mod Z.of_nat (length l)).
Proof.
  intros Hl. assert (0 < Z.of_nat (length l))%Z as Hn by (destruct l; simpl; [done|lia]).
  set (n := Z.of_nat (length l)) in *.
  pose proof (Z.quot_rem' x n) as Hqr.
  pose proof (Z.rem_bound_abs x n ltac:(lia)) as Hb.
  unfold at_. fold n. destruct (Z.rem x n <? 0)%Z eqn:Hneg.
  - apply Z.ltb_lt in Hneg.
    assert (n + Z.rem x n = x mod n)%Z as <-.
    { apply (Z.mod_unique_pos x n (x ÷ n - 1)); lia. }
    destruct (n + Z.rem x n <? 0)%Z eqn:Hk; [apply Z.ltb_lt in Hk; lia|done].
  - apply Z.ltb_ge in Hneg.
    assert (Z.rem x n = x mod n)%Z as <-.
    { apply (Z.mod_unique_pos x n (x ÷ n)); lia. }
    destruct (Z.rem x n <? 0)%Z eqn:Hk; [apply Z.ltb_lt in Hk; lia|done].
Qed.

Lemma arrowOf_name (a : Arrow) : arrowOf (arrowName a) = Some a.
Proof. by destruct a. Qed.

(** The history never becomes empty. *)
Lemma history_nonempty_eval (s : t) : history (eval s) ≠ [].
Proof.
  destruct (eval_history s) as [-> _]. intros Heq.
  apply app_eq_nil in Heq as [_ ?]. done.
Qed.

Lemma history_nonempty_onData (data : string) (s : t) :
  history s ≠ [] → history (onData data s) ≠ [].
Proof.
  unfold onData. simpl. intros Hne Heq. apply Hne.
  apply (f_equal length) in Heq. rewrite length_insert in Heq.
  by destruct (history s).
Qed.

Lemma history_navigate (a : Arrow) (s : t) : history (navigate a s) = history s.
Proof.
  unfold navigate. repeat (case_match; simpl; try done).
Qed.

(** C4: with no newline in the open (last) history entry, an unmodified
    ArrowUp or ArrowDown moves the index to [(index - 1) % length]
    (respectively [+ 1]), which is congruent to the step modulo the length,
    sets the buffer to the history entry at that residue, leaves the
    history as it is and consumes the event; with history
    [["a"; "b"; ""]] and the index on the open entry, ArrowUp, ArrowUp,
    ArrowDown leaves the buffer on ["b"]; with a newline in the open entry
    the key does nothing. *)
Theorem history_navigation (s : t) (a : Arrow) :
  let ev := mkKeyEvent [] (arrowName a) in
  let n := Z.of_nat (length (history s)) in
  let index := Z.rem (historyIndex s + arrowStep a) n in
  (editingMultiline s = false → history s ≠ [] →
   ∃ text, onKey ev s = (setBuffer text (setHistoryIndex index s), true) ∧
           history s !! Z.to_nat ((historyIndex s + arrowStep a) mod n) = Some text ∧
           (index mod n = (historyIndex s + arrowStep a) mod n)%Z) ∧
  (editingMultiline s = true → onKey ev s = (s, false)) ∧
  (let up := mkKeyEvent [] "ArrowUp" in
   let down := mkKeyEvent [] "ArrowDown" in
   let s1 := fst (onKey up threeEntries) in
   let s2 := fst (onKey up s1) in
   let s3 := fst (onKey down s2) in
   (buffer s1, buffer s2, buffer s3) = ("b", "a", "b") ∧
   (historyIndex s1, historyIndex s2, historyIndex s3) = (1, 0, 1)%Z).
Proof.
  cbv zeta. split_and!.
  - intros Hml Hne. unfold onKey. cbn [modifiers key].
    assert (String.eqb (arrowName a) "Enter" = false) as -> by by destruct a.
    rewrite arrowOf_name, Hml. unfold navigate. rewrite Hml.
    assert (0 < Z.of_nat (length (history s)))%Z as Hn
      by (destruct (history s); simpl; [done|lia]).
    destruct (Z.of_nat (length (history s)) <=? 0)%Z eqn:Hle;
      [apply Z.leb_le in Hle; lia|].
    fold (arrowStep a). cbn [history setHistoryIndex].
    rewrite at_rem by done.
    destruct (lookup_lt_is_Some_2 (history s)
                (Z.to_nat ((historyIndex s + arrowStep a) mod Z.of_nat (length (history s)))))
      as [text Htext].
    { pose proof (Z.mod_pos_bound (historyIndex s + arrowStep a)
                    (Z.of_nat (length (history s))) Hn). lia. }
    exists text. rewrite Htext. split_and!; [done|done|].
    generalize (historyIndex s + arrowStep a)%Z (Z.of_nat (length (history s))).
    intros x n. pose proof (Z.quot_rem' x n) as Hqr.
    assert (x mod n = (Z.rem x n + (x ÷ n) * n) mod n)%Z as -> by (f_equal; lia).
    by rewrite Z_mod_plus_full.
  - intros Hml. unfold onKey. cbn [modifiers key].
    assert (String.eqb (arrowName a) "Enter" = false) as -> by by destruct a.
    by rewrite arrowOf_name, Hml.
  - reflexivity.
  - reflexivity.
Qed.

End Facts.



(** A scripting context that knows [1+1;]: the statement runs from the
    start to the semicolon, the rewritten form [return [(1+1;)]] is a
    syntax error, and the code evaluates to [undefined] on its own. *)
Definition semicolonProgram : Collaborators :=
  {| normalizeText := fun text => text;
     formatLog := fun _ => "";
     renderBuffer := fun value => value;
     bufferWrite := fun data value => (value ++ data)%string;
     parse := fun code =>
       if String.eqb code "1+1;"
       then Normal [mkStmt 0 (Some (mkPosition 1 0, mkPosition 1 4))]
       else Throw (mkError "SyntaxError" "Unexpected token");
     evaluate := fun script _ =>
       if String.eqb script "1+1;" then Normal VUndefined
       else Throw (mkError "SyntaxError" "Unexpected token");
     toString := fun _ => "" |}.

(** A trailing expression written with its semicolon is not logged: the
    semicolon ends up inside the parentheses of the rewritten script, and
    the console logs [undefined] instead of the value. *)
Example semicolon_logs_undefined :
  codeRet "1+1;" (Some (mkStmt 0 (Some (mkPosition 1 0, mkPosition 1 4)))) =
    "return [(1+1;)]" ∧
  console (eval (H := semicolonProgram) (typed "1+1;")) =
    [mkEntry LLog (VString "1+1;");
     mkEntry LDebug (VError (mkError "SyntaxError" "Unexpected token"));
     mkEntry LLog VUndefined].
Proof. split; reflexivity. Qed.

Lemma history_navigation_witness :
  ∃ text,
    onKey (H := twoPrograms) (mkKeyEvent [] (arrowName ArrowUp)) threeEntries =
      (setBuffer text
         (setHistoryIndex
            (Z.rem (historyIndex threeEntries + arrowStep ArrowUp)
               (Z.of_nat (length (history threeEntries)))) threeEntries), true) ∧
    history threeEntries !!
      Z.to_nat ((historyIndex threeEntries + arrowStep ArrowUp)
                mod Z.of_nat (length (history threeEntries))) = Some text ∧
    (Z.rem (historyIndex threeEntries + arrowStep ArrowUp)
       (Z.of_nat (length (history threeEntries)))
     mod Z.of_nat (length (history threeEntries)) =
     (historyIndex threeEntries + arrowStep ArrowUp)
     mod Z.of_nat (length (history threeEntries)))%Z.
Proof.
  apply (proj1 (history_navigation (H := twoPrograms) threeEntries ArrowUp)).
  - reflexivity.
  - discriminate.
Defined.

(** From index 0, ArrowUp stores the negative index [-1] and shows the
    last entry. *)
Example navigation_wraps :
  let s := fst (onKey (H := twoPrograms) (mkKeyEvent [] "ArrowUp")
                  (mkConsole Pseudo.create "" ["a"; "b"; ""] 0 [] [] [])) in
  (historyIndex s, buffer s) = ((-1)%Z, "").
Proof. reflexivity. Qed.

End ConsoleFacts.

(** ** The sessions backed by a process *)

Module ShellFacts.
Import ChildProcess.

Definition killFailure : Completion unit :=
  Throw (mkError "Error" "errors.error-killing-pseudoterminal").

Definition fourPipes : list StdioOption := [Pipe; Pipe; Pipe; Pipe].

(** The shell of a Unix session once it has exited. *)
Definition exitedUnix : UnixPseudoterminal.t :=
  UnixPseudoterminal.mkUnix (Normal (exits (spawn 4242 fourPipes))).

Definition exitedWindows : WindowsPseudoterminal.t :=
  WindowsPseudoterminal.mkWindows (Normal (exits (spawn 4242 [Pipe; Pipe; Pipe])))
    "C:\tmp\code" None false.

(** C5 (amended): [kill()] of the Unix and of the Windows session returns
    no value.  It completes normally exactly when the process handle's
    [kill()] reports true, and throws the error-killing-pseudoterminal
    error when the handle reports false.  A first [kill()] on a running
    shell completes; a [kill()] made once the process has exited throws. *)
Theorem kill_throws_when_process_gone (p : ChildProcess.t) (codeTmp : string)
    (resizer : option ChildProcess.t) (conhost : bool) :
  let unix := UnixPseudoterminal.mkUnix (Normal p) in
  let windows := WindowsPseudoterminal.mkWindows (Normal p) codeTmp resizer conhost in
  fst (UnixPseudoterminal.kill unix) =
    (if fst (ChildProcess.kill p) then Normal tt else killFailure) ∧
  fst (WindowsPseudoterminal.kill windows) =
    (if fst (ChildProcess.kill p) then Normal tt else killFailure) ∧
  (if running p
   then UnixPseudoterminal.kill unix =
          (Normal tt, UnixPseudoterminal.mkUnix (Normal (snd (ChildProcess.kill p)))) ∧
        WindowsPseudoterminal.kill windows =
          (Normal tt, WindowsPseudoterminal.mkWindows (Normal (snd (ChildProcess.kill p)))
                        codeTmp resizer conhost)
   else UnixPseudoterminal.kill unix = (killFailure, unix) ∧
        WindowsPseudoterminal.kill windows = (killFailure, windows)) ∧
  fst (UnixPseudoterminal.kill
         (UnixPseudoterminal.mkUnix (Normal (exits (snd (ChildProcess.kill p)))))) =
    killFailure ∧
  fst (WindowsPseudoterminal.kill
         (WindowsPseudoterminal.mkWindows (Normal (exits (snd (ChildProcess.kill p))))
            codeTmp resizer conhost)) = killFailure.
Proof.
  cbv zeta. unfold UnixPseudoterminal.kill, WindowsPseudoterminal.kill, ChildProcess.kill.
  destruct p as [pid0 [] sent io]; simpl; done.
Qed.

(** C5 as stated fails: a [kill()] call made after the process has died
    does not complete; it throws, for both sessions. *)
Lemma kill_after_exit_throws :
  fst (UnixPseudoterminal.kill exitedUnix) = killFailure ∧
  fst (WindowsPseudoterminal.kill exitedWindows) = killFailure ∧
  fst (UnixPseudoterminal.kill exitedUnix) ≠ Normal tt ∧
  fst (WindowsPseudoterminal.kill exitedWindows) ≠ Normal tt.
Proof. repeat split; try reflexivity; discriminate. Qed.

(** C7: whatever the state of the session, [resize(columns, rows)] writes
    nothing but the one chunk [<columns>x<rows>\n] to the fourth stdio
    stream: every other stream, stdin and stdout among them, is left as it
    was.  It writes that chunk and returns exactly when the shell was
    spawned, its fourth stream is a writable stream, as it is for a shell
    spawned by the constructor, and the shell is running.  In every other
    case it throws and leaves the session as it was: the spawn error, a
    [TypeError] for the stream, or the error of the write when the shell
    has exited.  [resize(80, 24)] on a fresh session writes ["80x24\n"]. *)
Theorem resize_writes_line (s : UnixPseudoterminal.t) (columns rows : Z) :
  let line := (numberToString columns ++ "x" ++ numberToString rows ++ LF)%string in
  let r := UnixPseudoterminal.resize columns rows s in
  (∀ p st,
     UnixPseudoterminal.shell s = Normal p →
     stdio p !! UnixPseudoterminal.cmdio = Some (Some st) →
     instanceofWritable st = true → running p = true →
     ∃ p', r = (Normal tt, UnixPseudoterminal.mkUnix (Normal p')) ∧
           writtenTo 3 p' = writtenTo 3 p ++ [line] ∧
           (∀ fd, fd ≠ 3 → stdio p' !! fd = stdio p !! fd) ∧
           running p' = true) ∧
  (∀ p st,
     UnixPseudoterminal.shell s = Normal p →
     stdio p !! UnixPseudoterminal.cmdio = Some (Some st) →
     instanceofWritable st = true → running p = false →
     r = (Throw writeFailure, s)) ∧
  (fst r = Normal tt →
   ∃ p st, UnixPseudoterminal.shell s = Normal p ∧
           stdio p !! UnixPseudoterminal.cmdio = Some (Some st) ∧
           instanceofWritable st = true ∧ running p = true) ∧
  (fst r ≠ Normal tt → snd r = s) ∧
  ∀ py pid,
    writtenTo 3 <$>
      (match UnixPseudoterminal.shell
               (snd (UnixPseudoterminal.resize 80 24
                       (UnixPseudoterminal.create (Some py) pid))) with
       | Normal q => Some q
       | Throw _ => None
       end) = Some [("80x24" ++ LF)%string].
Proof.
  cbv zeta. destruct s as [[p|e]]; unfold UnixPseudoterminal.resize, write;
    cbn [UnixPseudoterminal.shell]; [|by split_and!].
  unfold UnixPseudoterminal.cmdio.
  destruct (stdio p !! 3) as [[st|]|] eqn:Hio;
    [destruct (instanceofWritable st) eqn:Hw; [destruct (running p) eqn:Hr|]| |];
    cbn [fst snd]; split_and!; try done;
    try (intros p0 st0 [= <-] Hio0 Hw0 Hr0; congruence);
    try (intros _; by exists p, st).
  intros p0 st0 [= <-] _ _ _. eexists. split; [reflexivity|].
  unfold writtenTo, writePromise. cbn [stdio running].
  split_and!.
  - rewrite list_lookup_alter_eq, Hio. done.
  - intros fd Hfd. by rewrite list_lookup_alter_ne.
  - done.
Qed.

Lemma resize_writes_line_witness :
  ∃ p', UnixPseudoterminal.resize 80 24
          (UnixPseudoterminal.mkUnix (Normal (spawn 4242 fourPipes))) =
          (Normal tt, UnixPseudoterminal.mkUnix (Normal p')) ∧
        writtenTo 3 p' =
          writtenTo 3 (spawn 4242 fourPipes) ++
          [(numberToString 80 ++ "x" ++ numberToString 24 ++ LF)%string] ∧
        (∀ fd, fd ≠ 3 → stdio p' !! fd = stdio (spawn 4242 fourPipes) !! fd) ∧
        running p' = true.
Proof.
  exact (proj1 (resize_writes_line
                  (UnixPseudoterminal.mkUnix (Normal (spawn 4242 fourPipes))) 80 24)
           (spawn 4242 fourPipes) (mkStream Duplex []) eq_refl eq_refl eq_refl eq_refl).
Defined.

(** Once the shell has exited the write fails: [resize] throws the error
    of the write and nothing reaches the stream. *)
Example resize_after_exit_throws :
  UnixPseudoterminal.resize 80 24 exitedUnix = (Throw writeFailure, exitedUnix) ∧
  (∀ p, UnixPseudoterminal.shell exitedUnix = Normal p → writtenTo 3 p = []).
Proof. split; [reflexivity|]. by intros p [= <-]. Qed.

Import WindowsPseudoterminal.

Definition CR : string := String (ascii_of_nat 13) EmptyString.

(** What [echo %ERRORLEVEL% >file] leaves in the temp file for error
    level 3: the digits, the blank before [>], and the line end. *)
Definition errorLevel3 : string := ("3 " ++ CR ++ LF)%string.

(** C6: on the shell's exit the exit future resolves to the integer that
    [parseInt(_, 10)] reads from the trimmed contents of the temp file,
    whatever the console process's own code is; when there is no such
    integer, or the file cannot be read (the error is then logged at debug
    level), it resolves to the console process's code, else its signal,
    else [NaN].  In each case the file is still there when the handler
    returns and one cleanup task is started with the delay
    [TERMINAL_EXIT_CLEANUP_WAIT]; when it runs it deletes the file, and a
    failing cleanup only adds a warning to the console.  With error level
    3 in the file and console code 1 the result is 3. *)
Theorem exit_code_recovered (delay : Z) (path : string) (conCode : option Z)
    (signal : option string) (w : World) :
  let v := fst (onShellExit delay path conCode signal w) in
  let w' := snd (onShellExit delay path conCode signal w) in
  (∀ contents n, files w !! path = Some contents →
                 parseInt10 (trim contents) = Num n → v = ExitCode (Num n)) ∧
  (∀ contents, files w !! path = Some contents →
               parseInt10 (trim contents) = NaN → v = codeOrSignal conCode signal) ∧
  (files w !! path = None →
   v = codeOrSignal conCode signal ∧
   console w' = console w ++ [Debug (mkError "Error" "ENOENT")]) ∧
  (∀ c sg, codeOrSignal (Some c) sg = ExitCode (Num c)) ∧
  (∀ sg, codeOrSignal None (Some sg) = ExitSignal sg) ∧
  codeOrSignal None None = ExitCode NaN ∧
  files w' = files w ∧
  timers w' = timers w ++ [(delay, path)] ∧
  (timers w = [] →
   cleanup (Normal tt) w' = mkWorld (delete path (files w)) (console w') [] ∧
   ∀ e, cleanup (Throw e) w' = mkWorld (files w) (console w' ++ [Warn e]) []) ∧
  fst (onShellExit delay path (Some 1%Z) None
         (mkWorld {[path := errorLevel3]} [] [])) = ExitCode (Num 3).
Proof.
  cbv zeta. unfold onShellExit, readFile.
  split_and!.
  - intros contents n -> ->. done.
  - intros contents -> ->. done.
  - intros ->. done.
  - done.
  - done.
  - done.
  - by destruct (files w !! path).
  - by destruct (files w !! path).
  - intros Ht. unfold cleanup. destruct (files w !! path); simpl; rewrite Ht; done.
  - cbn [files]. rewrite lookup_singleton_eq. reflexivity.
Qed.

(** The recovery works for every error level: the digits written by
    [echo], followed by the blank and the line end, are read back as the
    number. *)
Definition echoed (n : N) : string := (pretty n ++ " " ++ CR ++ LF)%string.

Lemma list_ascii_app (a b : string) :
  list_ascii_of_string (a ++ b) = list_ascii_of_string a ++ list_ascii_of_string b.
Proof. induction a as [|c a IH]; simpl; [done|by rewrite IH]. Qed.

Lemma dropWhile_none {A} (f : A → bool) (l : list A) :
  Forall (λ x, f x = false) l → dropWhile f l = l.
Proof. destruct 1 as [|x l Hx _]; simpl; [done|by rewrite Hx]. Qed.

Lemma dropWhile_head {A} (f : A → bool) (x : A) (l : list A) :
  f x = false → dropWhile f (x :: l) = x :: l.
Proof. intros Hx. simpl. by rewrite Hx. Qed.

Lemma dropWhile_all {A} (f : A → bool) (a b : list A) :
  Forall (λ x, f x = true) a → dropWhile f (a ++ b) = dropWhile f b.
Proof. induction 1 as [|x a Hx _ IH]; simpl; [done|by rewrite Hx]. Qed.

Definition isDigitChar (c : ascii) : Prop := ∃ m, (m < 10)%N ∧ c = pretty_N_char m.

Lemma digitOf_char (m : N) : (m < 10)%N → digitOf (pretty_N_char m) = Some (Z.of_N m).
Proof.
  intros Hm.
  assert (m = 0 ∨ m = 1 ∨ m = 2 ∨ m = 3 ∨ m = 4 ∨ m = 5 ∨ m = 6 ∨ m = 7 ∨
          m = 8 ∨ m = 9)%N as Hcases by lia.
  repeat (destruct Hcases as [->|Hcases]; [reflexivity|]). subst. reflexivity.
Qed.

Lemma digit_not_white (c : ascii) : isDigitChar c → isWhiteSpace c = false.
Proof. intros (m & _ & ->). unfold pretty_N_char. by repeat case_match. Qed.

Lemma digit_not_sign (c : ascii) :
  isDigitChar c → Ascii.eqb c "-" = false ∧ Ascii.eqb c "+" = false.
Proof. intros (m & _ & ->). unfold pretty_N_char. by repeat case_match. Qed.

(** The digits of [x] are put in front of [s]. *)
Lemma pretty_go_digits (x : N) : ∀ s,
  ∃ pre, list_ascii_of_string (pretty_N_go x s) = pre ++ list_ascii_of_string s ∧
         Forall isDigitChar pre ∧ ((0 < x)%N → pre ≠ []).
Proof.
  induction (N.lt_wf_0 x) as [x _ IH]. intros s.
  destruct (decide (x = 0)%N) as [->|Hx].
  - exists []. rewrite pretty_N_go_0. split_and!; [done|constructor|lia].
  - rewrite pretty_N_go_step by lia.
    destruct (IH (x `div` 10)%N ltac:(apply N.div_lt; lia)
                (String (pretty_N_char (x `mod` 10)) s)) as (pre & Hpre & Hall & _).
    exists (pre ++ [pretty_N_char (x `mod` 10)]). rewrite Hpre. simpl.
    rewrite <- app_assoc. split_and!; [done| |by destruct pre].
    apply Forall_app. split; [done|]. apply Forall_singleton.
    exists (x `mod` 10)%N. split; [|done]. apply N.mod_lt. lia.
Qed.

Lemma digits_pretty_go (x : N) : ∀ s,
  (0 < x)%N →
  digits (list_ascii_of_string (pretty_N_go x s)) None =
  digits (list_ascii_of_string s) (Some (Z.of_N x)).
Proof.
  induction (N.lt_wf_0 x) as [x _ IH]. intros s Hx.
  rewrite pretty_N_go_step by done.
  pose proof (N.div_mod x 10 ltac:(lia)) as Hdm.
  pose proof (N.mod_lt x 10 ltac:(lia)) as Hlt.
  destruct (decide (x `div` 10 = 0)%N) as [Hz|Hnz].
  - rewrite Hz, pretty_N_go_0. simpl. rewrite digitOf_char by done.
    simpl. do 2 f_equal. lia.
  - rewrite IH by (try apply N.div_lt; lia). simpl.
    rewrite digitOf_char by done. simpl. do 2 f_equal. lia.
Qed.

Lemma parse_echoed (n : N) : parseInt10 (trim (echoed n)) = Num (Z.of_N n).
Proof.
  unfold echoed, pretty, pretty_N. case_decide as Hn; [by subst|].
  destruct (pretty_go_digits n "") as (pre & Hpre & Hall & Hne).
  simpl in Hpre. rewrite app_nil_r in Hpre.
  assert (Forall (λ c, isWhiteSpace c = false) pre) as Hnw.
  { eapply Forall_impl; [done|]. apply digit_not_white. }
  assert (trim (pretty_N_go n "" ++ " " ++ CR ++ LF) = pretty_N_go n "") as ->.
  { unfold trim. rewrite list_ascii_app, Hpre.
    assert (dropWhile isWhiteSpace (pre ++ list_ascii_of_string (" " ++ CR ++ LF))
            = pre ++ list_ascii_of_string (" " ++ CR ++ LF)) as ->.
    { destruct pre as [|c rest]; [by destruct Hne; [lia|]|].
      apply Forall_cons in Hnw as [Hc _]. by apply dropWhile_head. }
    rewrite rev_app_distr.
    rewrite dropWhile_all by (repeat constructor).
    rewrite dropWhile_none by (by apply Forall_rev).
    rewrite rev_involutive, <- Hpre. apply string_of_list_ascii_of_string. }
  unfold parseInt10. rewrite Hpre, dropWhile_none by done.
  destruct pre as [|c rest]; [by destruct Hne; [lia|]|].
  apply Forall_cons in Hall as [Hc _].
  destruct (digit_not_sign c Hc) as [-> ->]. rewrite <- Hpre.
  rewrite digits_pretty_go by lia. simpl. f_equal. lia.
Qed.

(** Whatever the console process reports, an error level written to the
    temp file is what the exit future resolves to. *)
Lemma error_level_recovered (n : N) (delay : Z) (path : string)
    (conCode : option Z) (signal : option string) :
  fst (onShellExit delay path conCode signal (mkWorld {[path := echoed n]} [] [])) =
  ExitCode (Num (Z.of_N n)).
Proof.
  unfold onShellExit, readFile. cbn [files]. rewrite lookup_singleton_eq.
  by rewrite parse_echoed.
Qed.

Lemma exit_code_recovered_witness :
  fst (onShellExit 5 "C:\tmp\code" (Some 1%Z) None
         (mkWorld {["C:\tmp\code" := errorLevel3]} [] [])) = ExitCode (Num 3) ∧
  fst (onShellExit 5 "C:\tmp\code" (Some 1%Z) None
         (mkWorld {["C:\tmp\code" := "ECHO is on."]} [] [])) = ExitCode (Num 1) ∧
  fst (onShellExit 5 "C:\tmp\code" None (Some "SIGTERM") (mkWorld ∅ [] [])) =
    ExitSignal "SIGTERM" ∧
  cleanup (Normal tt)
    (snd (onShellExit 5 "C:\tmp\code" (Some 1%Z) None
            (mkWorld {["C:\tmp\code" := errorLevel3]} [] []))) =
    mkWorld (delete "C:\tmp\code" {["C:\tmp\code" := errorLevel3]}) [] [].
Proof.
  pose (w := mkWorld {["C:\tmp\code" := errorLevel3]} [] []).
  pose (w2 := mkWorld {["C:\tmp\code" := "ECHO is on."]} [] []).
  pose (w3 := mkWorld ∅ [] []).
  split_and!.
  - exact (proj1 (exit_code_recovered 5 "C:\tmp\code" (Some 1%Z) None w)
             errorLevel3 3%Z (lookup_singleton_eq _ _) eq_refl).
  - exact (proj1 (proj2 (exit_code_recovered 5 "C:\tmp\code" (Some 1%Z) None w2))
             "ECHO is on." (lookup_singleton_eq _ _) eq_refl).
  - exact (proj1 (proj1 (proj2 (proj2
             (exit_code_recovered 5 "C:\tmp\code" None (Some "SIGTERM") w3)))
             (lookup_empty _))).
  - exact (proj1 (proj1 (proj2 (proj2 (proj2 (proj2 (proj2 (proj2 (proj2 (proj2
             (exit_code_recovered 5 "C:\tmp\code" (Some 1%Z) None w)))))))))
             eq_refl)).
Defined.

End ShellFacts.

(** ** The debounced resize of the adapter *)

Module EmulatorFacts.
Import Emulator.

(** Successive calls of the debounced function, none of them separated
    from the next by a firing of the timer. *)
Definition callAll (calls : list (Z * Z)) (e : t) : t :=
  foldl (fun e '(columns, rows) => snd (resizeDebounced columns rows e)) e calls.

(** How the one callback ends: with the session's error, else as
    [terminal.resize] does. *)
Definition outcomeOf (pty term : Completion unit) : Completion unit :=
  match pty with
  | Throw err => Throw err
  | Normal _ => term
  end.

Definition callers (first count : nat) : list nat :=
  (fun i => first + i) <$> seq 0 count.

Lemma callAll_snoc (calls : list (Z * Z)) (columns rows : Z) (e : t) :
  callAll (calls ++ [(columns, rows)]) e =
  snd (resizeDebounced columns rows (callAll calls e)).
Proof. unfold callAll. by rewrite foldl_app. Qed.

Lemma callAll_state (calls : list (Z * Z)) (e : t) :
  promises (callAll calls e) = promises e ++ callers (nextCaller e) (length calls) ∧
  timer (callAll calls e) = from_option Some (timer e) (last calls) ∧
  nextCaller (callAll calls e) = nextCaller e + length calls ∧
  inflight (callAll calls e) = inflight e ∧
  session (callAll calls e) = session e ∧
  settledCallers (callAll calls e) = settledCallers e ∧
  ptyResizes (callAll calls e) = ptyResizes e ∧
  terminalResizes (callAll calls e) = terminalResizes e.
Proof.
  induction calls as [|[columns rows] calls IH] using rev_ind.
  - unfold callers. simpl. rewrite app_nil_r, Nat.add_0_r. done.
  - rewrite callAll_snoc. destruct IH as (Hp & Ht & Hn & Hi & Hs & Hc & Hr & Hx).
    unfold resizeDebounced, callers in *. simpl.
    rewrite last_snoc, length_app, Hp, Hn. simpl.
    rewrite Nat.add_1_r, seq_S, fmap_app, app_assoc. simpl.
    split_and!; try done; lia.
Qed.


(** When the session failed to start, the callback never reaches the
    session's [resize] and every caller is rejected with that error. *)
Lemma resize_debounced_failed_session (e : t) (calls : list (Z * Z)) (final : Z * Z)
    (err : Error) :
  promises e = [] → timer e = None → session e = Throw err →
  let e1 := fire (callAll (calls ++ [final]) e) in
  ptyResizes e1 = ptyResizes e ∧
  settledCallers e1 =
    settledCallers e ++
    ((fun p => (p, Throw err)) <$> callers (nextCaller e) (S (length calls))).
Proof.
  intros Hp Ht Hs. cbv zeta.
  destruct (callAll_state (calls ++ [final]) e)
    as (Hp1 & Ht1 & Hn1 & Hi1 & Hs1 & Hc1 & Hr1 & Hx1).
  rewrite last_snoc, length_app, Nat.add_1_r in *. simpl in Ht1.
  unfold fire. rewrite Ht1, Hs1, Hs. destruct final as [columns rows].
  rewrite Hp in Hp1. simpl. rewrite Hp1, Hc1, Hr1. done.
Qed.

Definition started : t := create (Normal tt).



Example three_callers_rejected_alike :
  settledCallers
    (complete (Throw (mkError "Error" "errors.resizer-disabled")) (Normal tt)
       (fire (callAll [(80, 24); (100, 30); (120, 40)]%Z started))) =
  [(0, Throw (mkError "Error" "errors.resizer-disabled"));
   (1, Throw (mkError "Error" "errors.resizer-disabled"));
   (2, Throw (mkError "Error" "errors.resizer-disabled"))].
Proof. reflexivity. Qed.

End EmulatorFacts.

(** * Further properties of the code *)

(** ** The debounced resize over arbitrary event sequences *)

Module EmulatorTraces.
Import Emulator.

(** What can happen to the adapter: a [resize()] call with the proposed
    dimensions, the debounce timer firing, the oldest callback in flight
    completing. *)
Inductive Event : Type :=
| Resize (dim : option (Z * Z))
| Fire
| Complete (pty term : Completion unit).

Definition step (ev : Event) (e : t) : t :=
  match ev with
  | Resize dim => snd (resize dim e)
  | Fire => fire e
  | Complete pty term => complete pty term e
  end.

Definition run (evs : list Event) (e : t) : t := foldl (fun e ev => step ev e) e evs.

(** The callers that got an answer. *)
Definition answered (e : t) : list nat := fst <$> settledCallers e.

Lemma answered_settleAll (o : Completion unit) (e : t) :
  answered (settleAll o e) = answered e ++ promises e.
Proof.
  unfold answered, settleAll. simpl. rewrite fmap_app, <- list_fmap_compose.
  f_equal. by rewrite list_fmap_id.
Qed.

Lemma accounted_settleAll (o : Completion unit) (e : t) (l : list nat) :
  promises e ++ answered e ≡ₚ l →
  promises (settleAll o e) ++ answered (settleAll o e) ≡ₚ l.
Proof.
  intros Hl. rewrite answered_settleAll. simpl.
  by rewrite (Permutation_app_comm (answered e)).
Qed.

(** Every caller is accounted for exactly once: the pending callers and
    the answered ones are, together, the callers issued so far. *)
Lemma step_accounted (ev : Event) (e : t) :
  promises e ++ answered e ≡ₚ seq 0 (nextCaller e) →
  promises (step ev e) ++ answered (step ev e) ≡ₚ seq 0 (nextCaller (step ev e)).
Proof.
  intros Hinv. destruct ev as [[[columns rows]|]| |pty term]; cbn -[seq].
  - unfold answered in *. cbn -[seq]. rewrite seq_S. cbn -[seq].
    rewrite <- Hinv, <- !app_assoc.
    apply Permutation_app_head, Permutation_app_comm.
  - unfold answered in *. cbn -[seq]. rewrite seq_S, fmap_app. cbn -[seq].
    by rewrite app_assoc, Hinv.
  - unfold fire. destruct (timer e) as [[columns rows]|]; [|done].
    destruct (session e); [done|]. by apply accounted_settleAll.
  - unfold complete. destruct (inflight e) as [|[columns rows] rest]; [done|].
    destruct pty; by apply accounted_settleAll.
Qed.

(** A pending caller always has something to wait for: the timer is armed
    or a callback is in flight. *)
Lemma step_waiting (ev : Event) (e : t) :
  (promises e ≠ [] → timer e ≠ None ∨ inflight e ≠ []) →
  promises (step ev e) ≠ [] → timer (step ev e) ≠ None ∨ inflight (step ev e) ≠ [].
Proof.
  destruct ev as [[[columns rows]|]| |pty term]; simpl.
  - by left.
  - done.
  - unfold fire. destruct (timer e) as [[columns rows]|] eqn:Ht.
    + destruct (session e); simpl; [intros _ _; right; by destruct (inflight e)|done].
    + intros Hinv Hp. destruct (Hinv Hp) as [?|?]; [done|by right].
  - unfold complete. destruct (inflight e) as [|[columns rows] rest] eqn:Hi.
    + intros Hinv Hp. destruct (Hinv Hp) as [?|?]; [by left|done].
    + destruct pty; simpl; done.
Qed.

(** X1: whatever the sequence of [resize()] calls, timer firings and
    completions, every caller issued so far is either still pending or has
    been answered, never both and never twice. *)
Theorem callers_answered_once (session : Completion unit) (evs : list Event) :
  let e := run evs (create session) in
  promises e ++ answered e ≡ₚ seq 0 (nextCaller e) ∧
  NoDup (answered e) ∧
  (∀ p, p ∈ promises e → p ∉ answered e) ∧
  (∀ p, p < nextCaller e → p ∈ promises e ∨ p ∈ answered e).
Proof.
  cbv zeta.
  assert (promises (run evs (create session)) ++ answered (run evs (create session))
          ≡ₚ seq 0 (nextCaller (run evs (create session)))) as Hperm.
  { unfold run. induction evs as [|ev evs IH] using rev_ind; [done|].
    rewrite foldl_app. simpl. by apply step_accounted. }
  assert (NoDup (promises (run evs (create session)) ++
                 answered (run evs (create session)))) as Hnd.
  { rewrite Hperm. apply NoDup_seq. }
  apply NoDup_app in Hnd as (_ & Hdisj & Hnd).
  split_and!; [done|done|done|].
  intros p Hp. apply elem_of_app. rewrite Hperm. apply elem_of_seq. lia.
Qed.

(** X2: no caller is left hanging: while a caller is pending, the timer
    is armed or a callback is in flight. *)
Theorem pending_caller_is_served (session : Completion unit) (evs : list Event) :
  let e := run evs (create session) in
  promises e ≠ [] → timer e ≠ None ∨ inflight e ≠ [].
Proof.
  cbv zeta. unfold run. induction evs as [|ev evs IH] using rev_ind; [done|].
  rewrite foldl_app. simpl. by apply step_waiting.
Qed.

Lemma pending_caller_is_served_witness :
  timer (run [Resize (Some (80, 24)%Z)] (create (Normal tt))) ≠ None ∨
  inflight (run [Resize (Some (80, 24)%Z)] (create (Normal tt))) ≠ [].
Proof.
  apply (pending_caller_is_served (Normal tt) [Resize (Some (80, 24)%Z)]).
  discriminate.
Defined.

(** One debounce window: some calls, none separated from the next by a
    firing of the timer. *)
Lemma window_state (e : t) (calls : list (Z * Z)) (final : Z * Z) :
  let a := EmulatorFacts.callAll (calls ++ [final]) e in
  promises a = promises e ++ EmulatorFacts.callers (nextCaller e) (S (length calls)) ∧
  timer a = Some final ∧
  nextCaller a = nextCaller e + S (length calls) ∧
  inflight a = inflight e ∧ session a = session e ∧
  settledCallers a = settledCallers e ∧ ptyResizes a = ptyResizes e.
Proof.
  cbv zeta.
  destruct (EmulatorFacts.callAll_state (calls ++ [final]) e)
    as (Hp & Ht & Hn & Hi & Hs & Hc & Hr & _).
  rewrite last_snoc, length_app, Nat.add_1_r in *. done.
Qed.

Lemma callers_app (first a b : nat) :
  EmulatorFacts.callers first a ++ EmulatorFacts.callers (first + a) b =
  EmulatorFacts.callers first (a + b).
Proof.
  unfold EmulatorFacts.callers. rewrite seq_app, fmap_app. f_equal.
  replace (0 + a) with (a + 0) by lia.
  rewrite <- fmap_add_seq, <- list_fmap_compose.
  apply list_fmap_ext. intros _ i _. simpl. lia.
Qed.

(** X3: callers that arrive while a callback is in flight are answered by
    that callback: after [K] calls, the firing, [M] more calls and the
    completion, all [K + M] callers hold the outcome of the first session
    resize, made with the arguments of the [K]-th call; the timer is armed
    again with the arguments of the last call, and when it fires and that
    second resize completes, whatever its outcome, no caller is told. *)
Theorem late_callers_share_outcome (e : t) (calls1 calls2 : list (Z * Z))
    (final1 final2 : Z * Z) (pty term pty' term' : Completion unit) :
  promises e = [] → timer e = None → inflight e = [] → session e = Normal tt →
  let e1 := fire (EmulatorFacts.callAll (calls1 ++ [final1]) e) in
  let e2 := complete pty term (EmulatorFacts.callAll (calls2 ++ [final2]) e1) in
  let e3 := complete pty' term' (fire e2) in
  settledCallers e2 =
    settledCallers e ++
    ((fun p => (p, EmulatorFacts.outcomeOf pty term)) <$>
       EmulatorFacts.callers (nextCaller e) (S (length calls1) + S (length calls2))) ∧
  ptyResizes e2 = ptyResizes e ++ [final1] ∧
  promises e2 = [] ∧ timer e2 = Some final2 ∧
  ptyResizes e3 = ptyResizes e ++ [final1; final2] ∧
  settledCallers e3 = settledCallers e2.
Proof.
  intros Hp Ht Hi Hs. cbv zeta.
  destruct (window_state e calls1 final1) as (Hp1 & Ht1 & Hn1 & Hi1 & Hs1 & Hc1 & Hr1).
  set (a := EmulatorFacts.callAll (calls1 ++ [final1]) e) in *.
  assert (fire a = mkEmulator (promises a) None [final1] (Normal tt) (nextCaller a)
                     (settledCallers a) (ptyResizes a ++ [final1]) (terminalResizes a))
    as ->.
  { unfold fire. rewrite Ht1, Hs1, Hs, Hi1, Hi. by destruct final1. }
  set (b := mkEmulator _ _ _ _ _ _ _ _).
  destruct (window_state b calls2 final2) as (Hp2 & Ht2 & Hn2 & Hi2 & Hs2 & Hc2 & Hr2).
  set (c := EmulatorFacts.callAll (calls2 ++ [final2]) b) in *.
  unfold b in Hp2, Hn2, Hi2, Hs2, Hc2, Hr2.
  cbn [promises nextCaller inflight session settledCallers ptyResizes] in *.
  assert (promises c =
          EmulatorFacts.callers (nextCaller e) (S (length calls1) + S (length calls2)))
    as Hpc.
  { rewrite Hp2, Hp1, Hp, Hn1. cbn [app]. apply callers_app. }
  assert (complete pty term c =
          mkEmulator [] (Some final2) [] (Normal tt) (nextCaller c)
            (settledCallers e ++
             ((fun p => (p, EmulatorFacts.outcomeOf pty term)) <$>
                EmulatorFacts.callers (nextCaller e)
                  (S (length calls1) + S (length calls2))))
            (ptyResizes e ++ [final1])
            (match pty with
             | Normal _ => terminalResizes c ++ [final1]
             | Throw _ => terminalResizes c
             end)) as ->.
  { unfold complete. rewrite Hi2. destruct final1.
    destruct pty; unfold settleAll;
      cbn [promises timer inflight session nextCaller settledCallers ptyResizes
           terminalResizes EmulatorFacts.outcomeOf];
      by rewrite Hpc, Ht2, Hs2, Hc2, Hc1, Hr2, Hr1. }
  cbn [promises timer settledCallers ptyResizes].
  split_and!; try done.
  - unfold fire. cbn [timer session]. destruct final2.
    unfold complete. cbn [inflight app]. destruct pty'; unfold settleAll;
      cbn [ptyResizes]; by rewrite <- app_assoc.
  - unfold fire. cbn [timer session]. destruct final2.
    unfold complete. cbn [inflight app]. destruct pty'; unfold settleAll;
      cbn [settledCallers promises fmap list_fmap]; by rewrite app_nil_r.
Qed.

Lemma late_callers_share_outcome_witness :
  let e := EmulatorFacts.started in
  let e1 := fire (EmulatorFacts.callAll ([(80, 24)] ++ [(100, 30)])%Z e) in
  let e2 := complete (Normal tt) (Normal tt)
              (EmulatorFacts.callAll ([] ++ [(120, 40)%Z]) e1) in
  let e3 := complete (Throw (mkError "Error" "errors.resizer-disabled")) (Normal tt)
              (fire e2) in
  settledCallers e2 =
    settledCallers e ++
    ((fun p => (p, EmulatorFacts.outcomeOf (Normal tt) (Normal tt))) <$>
       EmulatorFacts.callers (nextCaller e)
         (S (length [(80, 24)%Z]) + S (length (@nil (Z * Z))))) ∧
  ptyResizes e2 = ptyResizes e ++ [(100, 30)%Z] ∧
  promises e2 = [] ∧ timer e2 = Some (120, 40)%Z ∧
  ptyResizes e3 = ptyResizes e ++ [(100, 30); (120, 40)]%Z ∧
  settledCallers e3 = settledCallers e2.
Proof.
  apply (late_callers_share_outcome EmulatorFacts.started [(80, 24)%Z] []
           (100, 30)%Z (120, 40)%Z (Normal tt) (Normal tt)
           (Throw (mkError "Error" "errors.resizer-disabled")) (Normal tt));
    reflexivity.
Defined.

End EmulatorTraces.

(** ** The wrapper's counter under any interleaving *)

Module RefTraces.
Import Ref.

(** The balance of a script: the counter it leaves, starting from [c], and
    how many of its [kill()] calls brought the counter to zero or below. *)
Fixpoint counter (c : Z) (ops : list Op) : Z :=
  match ops with
  | [] => c
  | Dup _ :: rest => counter (c + 1) rest
  | Kill _ :: rest => counter (c - 1) rest
  | _ :: rest => counter c rest
  end.

Fixpoint fired (c : Z) (ops : list Op) : nat :=
  match ops with
  | [] => 0
  | Dup _ :: rest => fired (c + 1) rest
  | Kill _ :: rest => (if (c - 1 <=? 0)%Z then 1 else 0) + fired (c - 1) rest
  | _ :: rest => fired c rest
  end.

Definition dups (ops : list Op) : nat :=
  length (List.filter (fun o => match o with Dup _ => true | _ => false end) ops).

Definition kills (ops : list Op) : nat :=
  length (List.filter (fun o => match o with Kill _ => true | _ => false end) ops).

(** The operations name wrappers that exist; the only session is
    session 0, and no second family is started. *)
Fixpoint validScript (n : nat) (ops : list Op) : Prop :=
  match ops with
  | [] => True
  | Dup w :: rest => w < n ∧ validScript (S n) rest
  | Kill w :: rest => w < n ∧ validScript n rest
  | Exit d _ :: rest => d = 0 ∧ validScript n rest
  | New _ :: _ => False
  end.

Section Facts.
Context {T : Type} `{Pseudoterminal T}.

Lemma family_dup_any (h : Heap T) n c src :
  RefFacts.Family h n c → src < n →
  ∃ h', step (Dup src) h = Some h' ∧ RefFacts.Family h' (S n) (c + 1) ∧
        calls h' = calls h.
Proof.
  intros HF Hsrc.
  destruct (RefFacts.family_lookup _ _ _ _ HF Hsrc)
    as (wr & s & Hwr & Hd & Hr & Hs & Hc).
  destruct HF as (Hs1 & Hc1 & Hn & Hall).
  unfold step, dup, construct. rewrite Hwr. simpl. rewrite Hd, Hr, Hs, Hc. simpl.
  eexists. split; [reflexivity|]. unfold RefFacts.Family. simpl.
  split_and!; try done.
  - by rewrite Hc1.
  - rewrite length_app. simpl. lia.
  - apply Forall_app. split; [done|]. by apply Forall_singleton.
Qed.

Lemma family_exit (h : Heap T) n c o :
  RefFacts.Family h n c →
  ∃ h', step (Exit 0 o) h = Some h' ∧ RefFacts.Family h' n c ∧ calls h' = calls h.
Proof.
  intros (Hs1 & Hc1 & Hn & Hall).
  destruct (lookup_lt_is_Some_2 (sessions h) 0) as [s Hs]; [lia|].
  unfold step, sessionExit. rewrite Hs. simpl.
  destruct (onExit s); (eexists; split; [reflexivity|]);
    unfold RefFacts.Family; simpl; split_and!; try done.
  - by rewrite length_insert.
  - by rewrite length_fmap.
  - apply Forall_fmap. eapply Forall_impl; [done|].
    intros wr [Hd Hr]. unfold forward. simpl.
    by destruct (decide (delegate wr = 0)).
Qed.

Lemma script_balance (ops : list Op) : ∀ (h : Heap T) n c,
  RefFacts.Family h n c → validScript n ops →
  ∃ h', run ops h = Some h' ∧
        RefFacts.Family h' (n + dups ops) (counter c ops) ∧
        realKills 0 h' = realKills 0 h + fired c ops.
Proof.
  induction ops as [|op ops IH]; intros h n c HF Hv.
  - exists h. unfold dups. simpl. rewrite Nat.add_0_r. split_and!; [done|done|lia].
  - destruct op as [d|src|k|d o]; simpl in Hv; [done|..]; destruct Hv as [Hop Hv].
    + destruct (family_dup_any _ _ _ _ HF Hop) as (h1 & Hst & HF1 & Hc1).
      destruct (IH _ _ _ HF1 Hv) as (h2 & Hrun & HF2 & Hk).
      exists h2. cbn [run]. rewrite Hst. simpl. split; [done|].
      unfold dups in *. simpl.
      replace (n + S (length (List.filter _ ops)))
        with (S n + length (List.filter
                (fun o => match o with Dup _ => true | _ => false end) ops)) by lia.
      split; [done|]. rewrite Hk. unfold realKills. by rewrite Hc1.
    + destruct (RefFacts.family_kill _ _ _ _ HF Hop) as (h1 & Hst & HF1 & Hcnt & _).
      destruct (IH _ _ _ HF1 Hv) as (h2 & Hrun & HF2 & Hk).
      exists h2. cbn [run]. rewrite Hst. simpl. split; [done|].
      split; [done|]. rewrite Hk, Hcnt. lia.
    + subst d. destruct (family_exit _ _ _ o HF) as (h1 & Hst & HF1 & Hc1).
      destruct (IH _ _ _ HF1 Hv) as (h2 & Hrun & HF2 & Hk).
      exists h2. cbn [run]. rewrite Hst. simpl. split; [done|].
      split; [done|]. rewrite Hk. unfold realKills. by rewrite Hc1.
Qed.

Lemma counter_balance (ops : list Op) (c : Z) :
  counter c ops = (c + Z.of_nat (dups ops) - Z.of_nat (kills ops))%Z.
Proof.
  revert c. unfold dups, kills.
  induction ops as [|[d|src|k|d o] ops IH]; intros c; simpl; rewrite ?IH; lia.
Qed.

(** X4: for any interleaving of [dup()], [kill()] and exits of the
    session, the shared counter is one plus the number of [dup()] calls
    minus the number of [kill()] calls; the session's exit does not move
    it; and the real [kill] has been called once for every [kill()] call
    that brought the counter to zero or below, so a family duplicated again
    after its last release kills the session a second time. *)
Theorem counter_is_balance (t : T) (ops : list Op) :
  validScript 1 ops →
  ∃ h, run (New 0 :: ops) (init t) = Some h ∧
       cells h = [(1 + Z.of_nat (dups ops) - Z.of_nat (kills ops))%Z] ∧
       length (wrappers h) = 1 + dups ops ∧
       realKills 0 h = fired 1 ops.
Proof.
  intros Hv.
  destruct (RefFacts.family_new t) as (h1 & Hst & HF1 & _ & Hc1 & _).
  destruct (script_balance ops _ _ _ HF1 Hv) as (h2 & Hrun & HF2 & Hk).
  exists h2. cbn [run]. rewrite Hst. simpl. split; [done|].
  destruct HF2 as (_ & Hcell & Hlen & _).
  rewrite Hcell, counter_balance, Hlen, Hk. unfold realKills at 1. by rewrite Hc1.
Qed.

End Facts.

Lemma counter_is_balance_witness :
  ∃ h, run (New 0 :: [Dup 0; Kill 1; Exit 0 (Promise.Fulfilled EXIT_SUCCESS);
                      Kill 0; Dup 0; Kill 2])
         (init RefFacts.console0) = Some h ∧
       cells h = [(1 + Z.of_nat (dups [Dup 0; Kill 1;
                                       Exit 0 (Promise.Fulfilled EXIT_SUCCESS);
                                       Kill 0; Dup 0; Kill 2])
                   - Z.of_nat (kills [Dup 0; Kill 1;
                                      Exit 0 (Promise.Fulfilled EXIT_SUCCESS);
                                      Kill 0; Dup 0; Kill 2]))%Z] ∧
       length (wrappers h) =
         1 + dups [Dup 0; Kill 1; Exit 0 (Promise.Fulfilled EXIT_SUCCESS);
                   Kill 0; Dup 0; Kill 2] ∧
       realKills 0 h =
         fired 1 [Dup 0; Kill 1; Exit 0 (Promise.Fulfilled EXIT_SUCCESS);
                  Kill 0; Dup 0; Kill 2].
Proof.
  apply (counter_is_balance RefFacts.console0
           [Dup 0; Kill 1; Exit 0 (Promise.Fulfilled EXIT_SUCCESS);
            Kill 0; Dup 0; Kill 2]).
  simpl. lia.
Defined.

Example revived_family_kills_twice :
  fired 1 [Dup 0; Kill 1; Exit 0 (Promise.Fulfilled EXIT_SUCCESS);
           Kill 0; Dup 0; Kill 2] = 2.
Proof. reflexivity. Qed.

End RefTraces.

(** ** The console's history over arbitrary input *)

Module ConsoleTraces.
Import DeveloperConsole.

(** What reaches the console from a display surface: a chunk of data or a
    key. *)
Inductive Input : Type :=
| Data (data : string)
| Key (ev : KeyEvent).

Section Facts.
Context `{Collaborators}.

Definition handle (i : Input) (s : t) : t :=
  match i with
  | Data data => onData data s
  | Key ev => fst (onKey ev s)
  end.

Definition runInputs (inputs : list Input) (s : t) : t :=
  foldl (fun s i => handle i s) s inputs.

(** The entries committed by an evaluation: all but the open one. *)
Definition closed (s : t) : list string :=
  take (length (history s) - 1) (history s).

(** The history holds an entry and the index addresses one. *)
Definition Addressable (s : t) : Prop :=
  history s ≠ [] ∧
  (- Z.of_nat (length (history s)) < historyIndex s < Z.of_nat (length (history s)))%Z.

Lemma at_in_range {A} (l : list A) (i : Z) :
  (- Z.of_nat (length l) < i < Z.of_nat (length l))%Z → is_Some (at_ l i).
Proof.
  intros Hi. unfold at_. destruct (i <? 0)%Z eqn:Hneg.
  - apply Z.ltb_lt in Hneg.
    destruct (Z.of_nat (length l) + i <? 0)%Z eqn:Hk; [apply Z.ltb_lt in Hk; lia|].
    apply lookup_lt_is_Some_2. lia.
  - apply Z.ltb_ge in Hneg.
    destruct (i <? 0)%Z eqn:Hk; [apply Z.ltb_lt in Hk; lia|].
    apply lookup_lt_is_Some_2. lia.
Qed.

Lemma addressable_navigate (a : Arrow) (s : t) :
  Addressable s → Addressable (navigate a s).
Proof.
  intros [Hne Hi]. unfold navigate. destruct (editingMultiline s); [done|].
  assert (0 < Z.of_nat (length (history s)))%Z as Hn
    by (destruct (history s); simpl; [done|lia]).
  destruct (Z.of_nat (length (history s)) <=? 0)%Z; [done|].
  set (index := Z.rem _ _).
  assert (- Z.of_nat (length (history s)) < index < Z.of_nat (length (history s)))%Z
    as Hidx.
  { pose proof (Z.rem_bound_abs
      (historyIndex s + match a with ArrowDown => 1 | ArrowUp => -1 end)
      (Z.of_nat (length (history s))) ltac:(lia)). unfold index. lia. }
  cbn [history setHistoryIndex]. by destruct (at_ (history s) index).
Qed.

Lemma addressable_eval (s : t) : history s ≠ [] → Addressable (eval s).
Proof.
  intros Hne. destruct (ConsoleFacts.eval_history s) as (Hh & Hi & _).
  split; [apply ConsoleFacts.history_nonempty_eval|].
  rewrite Hh, Hi, length_app, length_take. simpl. lia.
Qed.

Lemma addressable_handle (i : Input) (s : t) : Addressable s → Addressable (handle i s).
Proof.
  intros HA. destruct i as [data|ev]; simpl.
  - destruct HA as [Hne Hi]. split.
    + by apply ConsoleFacts.history_nonempty_onData.
    + unfold onData. simpl. by rewrite length_insert.
  - unfold onKey. destruct (modifiers ev); [|done].
    destruct (String.eqb (key ev) "Enter").
    + apply addressable_eval. apply HA.
    + destruct (arrowOf (key ev)); [|done].
      destruct (editingMultiline s); [done|]. by apply addressable_navigate.
Qed.

(** X5: whatever is typed, the history keeps at least one entry and the
    history index stays strictly between minus the length and the length,
    so [history.at(index)] is always an entry: the early return for an
    undefined entry in the arrow-key handler is never taken. *)
Theorem history_index_addresses_entry (log : list JSValue) (inputs : list Input) :
  let s := runInputs inputs (create log) in
  history s ≠ [] ∧
  (- Z.of_nat (length (history s)) < historyIndex s < Z.of_nat (length (history s)))%Z ∧
  is_Some (at_ (history s) (historyIndex s)) ∧
  ∀ a, is_Some (at_ (history s)
                  (Z.rem (historyIndex s + ConsoleFacts.arrowStep a)
                     (Z.of_nat (length (history s))))).
Proof.
  cbv zeta.
  assert (Addressable (runInputs inputs (create log))) as [Hne Hi].
  { unfold runInputs. induction inputs as [|i inputs IH] using rev_ind.
    - split; [done|simpl; lia].
    - rewrite foldl_app. simpl. by apply addressable_handle. }
  split; [done|]. split; [done|]. split; [by apply at_in_range|].
  intros a. apply at_in_range.
  pose proof (Z.rem_bound_abs
    (historyIndex (runInputs inputs (create log)) + ConsoleFacts.arrowStep a)
    (Z.of_nat (length (history (runInputs inputs (create log)))))) as Hb.
  destruct (history (runInputs inputs (create log))); simpl in *; [done|lia].
Qed.

Lemma take_commit {A} (l : list A) (x y : A) (n : nat) :
  n = length l + 1 → take n (l ++ [x; y]) = l ++ [x].
Proof. intros ->. by rewrite take_app_add'. Qed.

Lemma closed_handle (i : Input) (s : t) :
  history s ≠ [] → closed s `prefix_of` closed (handle i s).
Proof.
  intros Hne. destruct i as [data|ev]; simpl.
  - unfold closed, onData. simpl. rewrite length_insert.
    rewrite take_insert_ge by lia. done.
  - unfold onKey. destruct (modifiers ev); [|done].
    destruct (String.eqb (key ev) "Enter").
    + cbn [fst]. unfold closed at 2.
      destruct (ConsoleFacts.eval_history s) as (-> & _).
      rewrite length_app, length_take. simpl.
      exists [buffer s]. fold (closed s).
      assert (length (closed s) = length (history s) - 1) as Hlen
        by (unfold closed; rewrite length_take; lia).
      apply take_commit. lia.
    + destruct (arrowOf (key ev)); [|done].
      destruct (editingMultiline s); [done|]. cbn [fst].
      unfold closed. by rewrite ConsoleFacts.history_navigate.
Qed.

(** X6: committed history entries are never changed or dropped: the
    entries closed so far are a prefix of the entries closed after any
    further input, and an evaluation (Enter) appends the buffer text to
    them, leaves an empty open entry and an empty buffer. *)
Theorem committed_entries_persist (log : list JSValue) (before after : list Input) :
  let s := runInputs before (create log) in
  closed s `prefix_of` closed (runInputs after s) ∧
  closed (eval s) = closed s ++ [buffer s] ∧
  last (history (eval s)) = Some "" ∧
  buffer (eval s) = "".
Proof.
  cbv zeta. set (s := runInputs before (create log)).
  assert (∀ inputs, history (runInputs inputs (create log)) ≠ []) as Hne.
  { intros inputs. apply (history_index_addresses_entry log inputs). }
  split_and!.
  - unfold s. clear s. induction after as [|i after IH] using rev_ind; [done|].
    unfold runInputs in *. rewrite foldl_app. simpl.
    etrans; [apply IH|]. apply closed_handle.
    rewrite <- foldl_app. apply Hne.
  - destruct (ConsoleFacts.eval_history s) as (Hh & _).
    unfold closed at 1. rewrite Hh, length_app, length_take. simpl.
    fold (closed s).
    assert (length (closed s) = length (history s) - 1) as Hlen.
    { unfold closed. rewrite length_take. lia. }
    pose proof (Hne before) as Hs. fold s in Hs.
    apply take_commit. lia.
  - destruct (ConsoleFacts.eval_history s) as (-> & _).
    by rewrite (last_app _ [buffer s; ""]).
  - apply (ConsoleFacts.eval_history s).
Qed.

End Facts.
End ConsoleTraces.

(** ** The rewritten script of the evaluator *)

Module CodeRetFacts.
Import DeveloperConsole.

Definition chars (s : string) : list ascii := list_ascii_of_string s.

Lemma chars_app (a b : string) : chars (a ++ b) = chars a ++ chars b.
Proof. induction a as [|c a IH]; simpl; [done|]. unfold chars in *. simpl. by rewrite IH. Qed.

Lemma chars_length (s : string) : length (chars s) = String.length s.
Proof. induction s as [|c s IH]; simpl; [done|]. unfold chars in *. simpl. by rewrite IH. Qed.

Lemma chars_substring (s : string) : ∀ n m,
  chars (substring n m s) = take m (drop n (chars s)).
Proof.
  induction s as [|c s IH]; intros n m.
  - destruct n, m; done.
  - destruct n as [|n].
    + destruct m as [|m]; [done|]. unfold chars in *. simpl. by rewrite IH.
    + unfold chars in *. simpl. apply IH.
Qed.

(** The rewritten script is the code with [return [(] put at the start of
    the last statement and [)]] put at the very end; no character of the
    code is lost or repeated, wherever the statement starts. *)
Lemma codeRet_chars (code : string) (st : Stmt) :
  chars (codeRet code (Some st)) =
  take (start st) (chars code) ++ chars "return [(" ++
  drop (start st) (chars code) ++ chars ")]".
Proof.
  unfold codeRet. rewrite !chars_app, !chars_substring. simpl drop.
  do 2 f_equal. f_equal. apply take_ge. rewrite length_drop, chars_length. lia.
Qed.

Lemma lookup_middle {A} (pre mid suf : list A) (k : nat) :
  k < length mid → (pre ++ mid ++ suf) !! (length pre + k) = mid !! k.
Proof.
  intros Hk. rewrite lookup_app_r by lia.
  replace (length pre + k - length pre) with k by lia. by rewrite lookup_app_l.
Qed.

Lemma lookup_all_middle {A} (pre mid suf : list A) :
  (fun k => (pre ++ mid ++ suf) !! (length pre + k)) <$> seq 0 (length mid) =
  Some <$> mid.
Proof.
  apply list_eq. intros i. rewrite !list_lookup_fmap.
  destruct (decide (i < length mid)) as [Hi|Hi].
  - rewrite lookup_seq_lt by done. simpl. rewrite lookup_middle by done.
    by destruct (lookup_lt_is_Some_2 mid i Hi) as [x ->].
  - rewrite lookup_seq_ge by lia. by rewrite lookup_ge_None_2 by lia.
Qed.

#[local] Instance Position_eq_dec : EqDecision Position.
Proof. solve_decision. Defined.

(** Lines and columns as the parser counts them, for text whose line
    break is the line feed: lines from 1, columns from 0. *)
Definition origin : Position := mkPosition 1 0.

Definition advance (p : Position) (c : ascii) : Position :=
  if Ascii.eqb c newline then mkPosition (S (line p)) 0
  else mkPosition (line p) (S (column p)).

(** Where a text that starts at [p] ends. *)
Definition posAfter (p : Position) (text : list ascii) : Position :=
  foldl advance p text.

(** The line and column of the character at [offset]. *)
Definition positionOf (text : list ascii) (offset : nat) : Position :=
  posAfter origin (take offset text).

(** The text without the characters that stand at one of the positions
    [ds]; [p] is where the text starts. *)
Fixpoint deleteFrom (p : Position) (ds : list Position) (text : list ascii)
    : list ascii :=
  match text with
  | [] => []
  | c :: rest =>
      (if decide (p ∈ ds) then [] else [c]) ++ deleteFrom (advance p c) ds rest
  end.

Definition deleteAt (ds : list Position) (text : list ascii) : list ascii :=
  deleteFrom origin ds text.

Definition flat (text : list ascii) : Prop :=
  Forall (fun c => Ascii.eqb c newline = false) text.

Definition le (p q : Position) : Prop :=
  line p < line q ∨ (line p = line q ∧ column p ≤ column q).

Definition lt (p q : Position) : Prop :=
  line p < line q ∨ (line p = line q ∧ column p < column q).

Lemma posAfter_app (p : Position) (a b : list ascii) :
  posAfter p (a ++ b) = posAfter (posAfter p a) b.
Proof. unfold posAfter. by rewrite foldl_app. Qed.

Lemma posAfter_flat (text : list ascii) : ∀ p,
  flat text → posAfter p text = mkPosition (line p) (column p + length text).
Proof.
  induction text as [|c text IH]; intros p Hflat.
  - destruct p. simpl. f_equal. lia.
  - inversion Hflat as [|? ? Hc Hrest]; subst.
    change (posAfter p (c :: text)) with (posAfter (advance p c) text).
    rewrite IH by done. unfold advance. rewrite Hc. simpl. f_equal. lia.
Qed.

Lemma posAfter_le (text : list ascii) : ∀ p, le p (posAfter p text).
Proof.
  induction text as [|c text IH]; intros p.
  - unfold le. simpl. lia.
  - change (posAfter p (c :: text)) with (posAfter (advance p c) text).
    specialize (IH (advance p c)). unfold le, advance in *.
    destruct (Ascii.eqb c newline); simpl in *; lia.
Qed.

(** Text put in front on the same line moves the end of a text by its
    length when the text stays on that line, and not at all otherwise. *)
Lemma posAfter_shift (d : nat) (text : list ascii) : ∀ p,
  posAfter (mkPosition (line p) (column p + d)) text =
  if decide (line p = line (posAfter p text))
  then mkPosition (line (posAfter p text)) (column (posAfter p text) + d)
  else posAfter p text.
Proof.
  induction text as [|c text IH]; intros p.
  - simpl. by rewrite decide_True.
  - change (posAfter p (c :: text)) with (posAfter (advance p c) text).
    change (posAfter (mkPosition (line p) (column p + d)) (c :: text))
      with (posAfter (advance (mkPosition (line p) (column p + d)) c) text).
    destruct (Ascii.eqb c newline) eqn:Hc.
    + assert (advance p c = mkPosition (S (line p)) 0) as ->
        by (unfold advance; by rewrite Hc).
      assert (advance (mkPosition (line p) (column p + d)) c =
              mkPosition (S (line p)) 0) as ->
        by (unfold advance; by rewrite Hc).
      pose proof (posAfter_le text (mkPosition (S (line p)) 0)) as Hle.
      unfold le in Hle. cbn [line column] in Hle.
      rewrite decide_False; [done|lia].
    + assert (advance p c = mkPosition (line p) (S (column p))) as ->
        by (unfold advance; by rewrite Hc).
      assert (advance (mkPosition (line p) (column p + d)) c =
              mkPosition (line p) (S (column p) + d)) as ->
        by (unfold advance; by rewrite Hc).
      exact (IH (mkPosition (line p) (S (column p)))).
Qed.

Lemma seq_from (a n : nat) : seq a n = Nat.add a <$> seq 0 n.
Proof. rewrite fmap_add_seq. f_equal. lia. Qed.

Lemma positionOf_middle (pre mid suf : list ascii) (k : nat) :
  flat mid → k ≤ length mid →
  positionOf (pre ++ mid ++ suf) (length pre + k) =
  mkPosition (line (posAfter origin pre)) (column (posAfter origin pre) + k).
Proof.
  intros Hflat Hk. unfold positionOf.
  rewrite take_app_add' by done. rewrite posAfter_app.
  rewrite take_app_le by done.
  rewrite posAfter_flat by (by apply Forall_take).
  rewrite length_take. f_equal. lia.
Qed.

Lemma deleteFrom_app (ds : list Position) (a b : list ascii) : ∀ p,
  deleteFrom p ds (a ++ b) = deleteFrom p ds a ++ deleteFrom (posAfter p a) ds b.
Proof.
  induction a as [|c a IH]; intros p; [done|].
  simpl. rewrite IH. by rewrite <- app_assoc.
Qed.

(** Characters none of which stands at a listed position all stay. *)
Lemma deleteFrom_keep (ds : list Position) (text : list ascii) : ∀ p,
  (∀ d, d ∈ ds → lt d p ∨ le (posAfter p text) d) →
  deleteFrom p ds text = text.
Proof.
  induction text as [|c text IH]; intros p Hds; [done|].
  change (posAfter p (c :: text)) with (posAfter (advance p c) text) in Hds.
  pose proof (posAfter_le text (advance p c)) as Hle.
  simpl. rewrite decide_False.
  - simpl. f_equal. apply IH. intros d Hd. destruct (Hds d Hd) as [Hlt|Hge].
    + left. unfold lt, advance in *. destruct (Ascii.eqb c newline); simpl; lia.
    + by right.
  - intros Hin. destruct (Hds p Hin) as [Hlt|Hge].
    + unfold lt in Hlt. lia.
    + unfold le, advance in *. destruct (Ascii.eqb c newline); simpl in *; lia.
Qed.

(** Characters on one line that all stand at listed positions all go. *)
Lemma deleteFrom_drop (ds : list Position) (text : list ascii) : ∀ p,
  flat text →
  (∀ k, k < length text → mkPosition (line p) (column p + k) ∈ ds) →
  deleteFrom p ds text = [].
Proof.
  induction text as [|c text IH]; intros p Hflat Hds; [done|].
  inversion Hflat as [|? ? Hc Hrest]; subst. simpl.
  rewrite decide_True.
  - simpl. apply IH; [done|]. intros k Hk. unfold advance. rewrite Hc.
    cbn [line column]. replace (S (column p) + k) with (column p + S k) by lia.
    apply Hds. simpl. lia.
  - specialize (Hds 0 ltac:(simpl; lia)). destruct p. simpl in Hds.
    by rewrite Nat.add_0_r in Hds.
Qed.

(** X7: the script built for the first strategy keeps every character of
    the code in order around the inserted text.  When the last statement
    reaches the end of the code, on whatever line it starts and however
    many lines it spans, the positions listed for removal are exactly the
    lines and columns at which the inserted characters [return [(] and
    [)]] stand in the script, and removing the characters at these
    positions from the script gives the code back. *)
Theorem deletions_point_at_insertions (code : string) (st : Stmt) :
  start st ≤ String.length code →
  loc st = Some (positionOf (chars code) (start st),
                 positionOf (chars code) (String.length code)) →
  let script := chars (codeRet code (Some st)) in
  let inserted := seq (start st) 9 ++ seq (String.length code + 9) 2 in
  script = take (start st) (chars code) ++ chars "return [(" ++
           drop (start st) (chars code) ++ chars ")]" ∧
  length script = String.length code + 11 ∧
  (fun k => script !! k) <$> inserted = Some <$> chars "return [()]" ∧
  codeRetDeletions (Some st) = positionOf script <$> inserted ∧
  deleteAt (codeRetDeletions (Some st)) script = chars code.
Proof.
  intros Hstart Hloc. cbv zeta. rewrite codeRet_chars.
  set (pre := take (start st) (chars code)).
  set (body := drop (start st) (chars code)).
  assert (length pre = start st) as Hpre.
  { unfold pre. rewrite length_take, chars_length. lia. }
  assert (length body = String.length code - start st) as Hbody.
  { unfold body. by rewrite length_drop, chars_length. }
  assert (flat (chars "return [(")) as Hflat9 by (repeat constructor).
  assert (flat (chars ")]")) as Hflat2 by (repeat constructor).
  set (P := posAfter origin pre).
  set (q := posAfter P body).
  set (Q := posAfter (mkPosition (line P) (column P + 9)) body).
  assert (positionOf (chars code) (start st) = P) as HP by done.
  assert (positionOf (chars code) (String.length code) = q) as Hq.
  { unfold positionOf, q, P. rewrite <- posAfter_app. unfold pre, body.
    rewrite take_drop. f_equal. apply take_ge. by rewrite chars_length. }
  assert (Q = if decide (line P = line q)
              then mkPosition (line q) (column q + 9) else q) as HQ.
  { unfold Q, q. apply posAfter_shift. }
  assert (posAfter origin ((pre ++ chars "return [(") ++ body) = Q) as HQ'.
  { rewrite !posAfter_app. fold P. by rewrite (posAfter_flat _ P Hflat9). }
  assert (codeRetDeletions (Some st) =
          ((fun k => mkPosition (line P) (column P + k)) <$> seq 0 9) ++
          ((fun k => mkPosition (line Q) (column Q + k)) <$> seq 0 2)) as Hdel.
  { unfold codeRetDeletions. change (Some st ≫= loc) with (loc st).
    rewrite Hloc, HP, Hq. cbn [line column String.length]. f_equal.
    rewrite HQ. destruct (decide (line P = line q)); cbn [line column]; [|done].
    apply list_fmap_ext. intros _ k _. f_equal. lia. }
  split; [done|]. split.
  { rewrite !length_app, Hpre, Hbody. simpl. lia. }
  split.
  { change (chars "return [()]") with (chars "return [(" ++ chars ")]").
    rewrite !fmap_app. f_equal.
    - rewrite <- (lookup_all_middle pre (chars "return [(") (body ++ chars ")]")).
      rewrite (seq_from (start st) 9), <- list_fmap_compose.
      apply list_fmap_ext. intros _ k _. simpl. by rewrite Hpre.
    - rewrite <- (lookup_all_middle ((pre ++ chars "return [(") ++ body)
                    (chars ")]") []).
      rewrite app_nil_r, <- !app_assoc.
      rewrite (seq_from (String.length code + 9) 2), <- list_fmap_compose.
      apply list_fmap_ext. intros _ k _. simpl. f_equal.
      rewrite length_app, Hpre. simpl. rewrite Hbody. lia. }
  split.
  { rewrite Hdel, fmap_app. f_equal.
    - rewrite (seq_from (start st) 9), <- list_fmap_compose.
      apply list_fmap_ext. intros i k Hk. apply lookup_seq in Hk as [-> Hi].
      simpl. rewrite <- Hpre.
      by rewrite (positionOf_middle pre (chars "return [(") (body ++ chars ")]"))
        by (done || simpl; lia).
    - rewrite (seq_from (String.length code + 9) 2), <- list_fmap_compose.
      apply list_fmap_ext. intros i k Hk. apply lookup_seq in Hk as [-> Hi].
      unfold compose. rewrite Nat.add_0_l.
      assert (String.length code + 9 = length ((pre ++ chars "return [(") ++ body))
        as -> by (rewrite !length_app, Hpre, Hbody; simpl; lia).
      assert (pre ++ chars "return [(" ++ body ++ chars ")]" =
              ((pre ++ chars "return [(") ++ body) ++ chars ")]" ++ []) as ->
        by (by rewrite app_nil_r, <- !app_assoc).
      rewrite positionOf_middle by (done || simpl; lia). by rewrite HQ'. }
  unfold deleteAt. rewrite !deleteFrom_app. fold P.
  rewrite (posAfter_flat _ P Hflat9). cbn [line column length chars].
  change (length (list_ascii_of_string "return [(")) with 9. fold Q.
  pose proof (posAfter_le body (mkPosition (line P) (column P + 9))) as HleQ.
  fold Q in HleQ. unfold le in HleQ. cbn [line column] in HleQ.
  assert (∀ d, d ∈ codeRetDeletions (Some st) →
            (line d = line P ∧ column P ≤ column d < column P + 9) ∨ le Q d) as Hds.
  { intros d. rewrite Hdel. intros Hd. apply elem_of_app in Hd as [Hd|Hd];
      apply list_elem_of_fmap in Hd as (k & -> & Hk); apply elem_of_seq in Hk.
    - left. simpl. lia.
    - right. unfold le. simpl. lia. }
  rewrite (deleteFrom_keep _ pre origin).
  2:{ intros d Hd. right. fold P. destruct (Hds d Hd) as [Hd'|Hd'].
      - unfold le. lia.
      - unfold le in *. lia. }
  rewrite (deleteFrom_drop _ (chars "return [(") P) by
    (done || (intros k Hk; rewrite Hdel; apply elem_of_app; left;
              apply list_elem_of_fmap; exists k; split; [done|];
              apply elem_of_seq; simpl in Hk; lia)).
  rewrite (deleteFrom_keep _ body (mkPosition (line P) (column P + 9))).
  2:{ intros d Hd. fold Q. destruct (Hds d Hd) as [Hd'|Hd'].
      - left. unfold lt. simpl. lia.
      - by right. }
  rewrite (deleteFrom_drop _ (chars ")]") Q) by
    (done || (intros k Hk; rewrite Hdel; apply elem_of_app; right;
              apply list_elem_of_fmap; exists k; split; [done|];
              apply elem_of_seq; simpl in Hk; lia)).
  rewrite app_nil_r. simpl. unfold pre, body. apply take_drop.
Qed.

Lemma deletions_point_at_insertions_witness :
  let code := ("let a = 1" ++ String newline "a+1")%string in
  let st := mkStmt 10 (Some (mkPosition 2 0, mkPosition 2 3)) in
  let script := chars (codeRet code (Some st)) in
  let inserted := seq (start st) 9 ++ seq (String.length code + 9) 2 in
  script = take (start st) (chars code) ++ chars "return [(" ++
           drop (start st) (chars code) ++ chars ")]" ∧
  length script = String.length code + 11 ∧
  (fun k => script !! k) <$> inserted = Some <$> chars "return [()]" ∧
  codeRetDeletions (Some st) = positionOf script <$> inserted ∧
  deleteAt (codeRetDeletions (Some st)) script = chars code.
Proof.
  apply (deletions_point_at_insertions ("let a = 1" ++ String newline "a+1")%string
           (mkStmt 10 (Some (mkPosition 2 0, mkPosition 2 3)))).
  - simpl. lia.
  - reflexivity.
Defined.

(** A last statement that spans two lines: the closing characters stand
    on the second line, where the columns are not moved. *)
Example two_line_statement_round_trip :
  let code := ("f(" ++ String newline "1)")%string in
  let st := mkStmt 0 (Some (mkPosition 1 0, mkPosition 2 2)) in
  drop 9 (codeRetDeletions (Some st)) = [mkPosition 2 2; mkPosition 2 3] ∧
  deleteAt (codeRetDeletions (Some st)) (chars (codeRet code (Some st))) = chars code.
Proof. split; reflexivity. Qed.

(** When text follows the last statement, [)]] is still put at the end of
    the code while the listed columns follow the end of the statement:
    the positions for [)]] point one character too far to the left for
    every character after the statement. *)
Example trailing_text_shifts_deletions :
  let code := "1+1 " in
  let st := mkStmt 0 (Some (mkPosition 1 0, mkPosition 1 3)) in
  codeRet code (Some st) = "return [(1+1 )]" ∧
  drop 9 (codeRetDeletions (Some st)) = [mkPosition 1 12; mkPosition 1 13] ∧
  positionOf (chars (codeRet code (Some st))) <$> [13; 14] =
    [mkPosition 1 13; mkPosition 1 14].
Proof. repeat split. Qed.

End CodeRetFacts.

(** ** [WindowsPseudoterminal.escapeArgument] *)

Module EscapeArgument.

Definition quote : ascii := ascii_of_nat 34.
Definition backslash : ascii := ascii_of_nat 92.
Definition caret : ascii := ascii_of_nat 94.

(** The first replacement of the source: a backslash before every double
    quote.  Modelled from the spec: [replaceAllRegex], the pattern of this
    replacement, is not among the sources; the spec has the embedded
    quotes, all of them, escaped. *)
Fixpoint escapeQuotes (l : list ascii) : list ascii :=
  match l with
  | [] => []
  | c :: rest =>
      if Ascii.eqb c quote then backslash :: quote :: escapeQuotes rest
      else c :: escapeQuotes rest
  end.

(** The character class of the second replacement: parentheses, percent,
    exclamation mark, caret, double quote, angle brackets, ampersand and
    vertical bar. *)
Definition isMeta (c : ascii) : bool :=
  existsb (Ascii.eqb c)
    [ascii_of_nat 40; ascii_of_nat 41; ascii_of_nat 37; ascii_of_nat 33; caret;
     quote; ascii_of_nat 60; ascii_of_nat 62; ascii_of_nat 38; ascii_of_nat 124].

(** The second replacement, global: a caret before every character of
    the class. *)
Fixpoint escapeMeta (l : list ascii) : list ascii :=
  match l with
  | [] => []
  | c :: rest =>
      if isMeta c then caret :: c :: escapeMeta rest else c :: escapeMeta rest
  end.

(** [escapeArgument(arg, shell)]. *)
Definition escapeArgument (arg : string) (shell : bool) : string :=
  let ret := quote :: escapeQuotes (list_ascii_of_string arg) ++ [quote] in
  string_of_list_ascii (if shell then escapeMeta ret else ret).

Definition count (f : ascii → bool) (l : list ascii) : nat :=
  length (List.filter f l).

Lemma escapeQuotes_head (l : list ascii) : head (escapeQuotes l) ≠ Some quote.
Proof.
  destruct l as [|c l]; simpl; [done|].
  destruct (Ascii.eqb c quote) eqn:Hc; simpl; [done|].
  intros [= ->]. by rewrite Ascii.eqb_refl in Hc.
Qed.

Lemma escapeQuotes_inj (a : list ascii) : ∀ b,
  escapeQuotes a = escapeQuotes b → a = b.
Proof.
  induction a as [|c a IH]; intros [|d b]; simpl.
  - done.
  - destruct (Ascii.eqb d quote); done.
  - destruct (Ascii.eqb c quote); done.
  - destruct (Ascii.eqb c quote) eqn:Hc, (Ascii.eqb d quote) eqn:Hd.
    + apply Ascii.eqb_eq in Hc, Hd. subst. intros [= Heq]. f_equal. by apply IH.
    + intros [= <- Heq]. destruct (escapeQuotes_head b). rewrite <- Heq. done.
    + intros [= -> Heq]. destruct (escapeQuotes_head a). rewrite Heq. done.
    + intros [= -> Heq]. f_equal. by apply IH.
Qed.

Lemma escapeMeta_inj (a : list ascii) : ∀ b,
  escapeMeta a = escapeMeta b → a = b.
Proof.
  induction a as [|c a IH]; intros [|d b]; simpl.
  - done.
  - destruct (isMeta d); done.
  - destruct (isMeta c); done.
  - destruct (isMeta c) eqn:Hc, (isMeta d) eqn:Hd.
    + intros [= -> Heq]. f_equal. by apply IH.
    + intros [= <- Heq]. done.
    + intros [= -> Heq]. done.
    + intros [= -> Heq]. f_equal. by apply IH.
Qed.

Lemma list_ascii_inj (a b : string) :
  list_ascii_of_string a = list_ascii_of_string b → a = b.
Proof.
  intros Heq. rewrite <- (string_of_list_ascii_of_string a),
    <- (string_of_list_ascii_of_string b). by rewrite Heq.
Qed.

Lemma string_of_list_inj (a b : list ascii) :
  string_of_list_ascii a = string_of_list_ascii b → a = b.
Proof.
  intros Heq. rewrite <- (list_ascii_of_string_of_list_ascii a),
    <- (list_ascii_of_string_of_list_ascii b). by rewrite Heq.
Qed.

(** X8: escaping loses nothing: two different arguments never get the
    same escaped text, with or without the second, caret, layer. *)
Theorem escapeArgument_injective (a b : string) (shell : bool) :
  escapeArgument a shell = escapeArgument b shell → a = b.
Proof.
  unfold escapeArgument. intros Heq. apply string_of_list_inj in Heq.
  assert (quote :: escapeQuotes (list_ascii_of_string a) ++ [quote] =
          quote :: escapeQuotes (list_ascii_of_string b) ++ [quote]) as Hret.
  { destruct shell; [by apply escapeMeta_inj|done]. }
  injection Hret as Hret. apply app_inv_tail in Hret.
  by apply list_ascii_inj, escapeQuotes_inj.
Qed.

Lemma escapeArgument_injective_witness :
  String (ascii_of_nat 34) "a" = String (ascii_of_nat 34) "a".
Proof.
  apply (escapeArgument_injective (String (ascii_of_nat 34) "a")
           (String (ascii_of_nat 34) "a") true).
  reflexivity.
Defined.

Lemma escapeQuotes_length (l : list ascii) :
  length (escapeQuotes l) = length l + count (fun c => Ascii.eqb c quote) l.
Proof.
  unfold count. induction l as [|c l IH]; simpl; [done|].
  destruct (Ascii.eqb c quote); simpl; rewrite IH; lia.
Qed.

Lemma escapeQuotes_guarded (l : list ascii) (i : nat) :
  escapeQuotes l !! i = Some quote →
  ∃ j, i = S j ∧ escapeQuotes l !! j = Some backslash.
Proof.
  revert i. induction l as [|c l IH]; intros i; simpl; [done|].
  destruct (Ascii.eqb c quote) eqn:Hc.
  - destruct i as [|[|i]]; simpl.
    + done.
    + intros _. by exists 0.
    + intros Hi. destruct (IH _ Hi) as (j & -> & Hj). by exists (S (S j)).
  - destruct i as [|i]; simpl.
    + intros [= ->]. by rewrite Ascii.eqb_refl in Hc.
    + intros Hi. destruct (IH _ Hi) as (j & -> & Hj). by exists (S j).
Qed.

Lemma escapeMeta_length (l : list ascii) :
  length (escapeMeta l) = length l + count isMeta l.
Proof.
  unfold count. induction l as [|c l IH]; simpl; [done|].
  destruct (isMeta c); simpl; rewrite IH; lia.
Qed.

(** X9: without the caret layer the escaped text is the argument between
    two quotes, one character longer for every quote in the argument, and
    every quote of the argument now follows a backslash; other
    characters, backslashes included, are copied as they are.  With the
    caret layer the text grows by one caret for every character of the
    class, the two enclosing quotes among them. *)
Theorem escapeArgument_shape (arg : string) :
  let body := escapeQuotes (list_ascii_of_string arg) in
  let quotes := count (fun c => Ascii.eqb c quote) (list_ascii_of_string arg) in
  list_ascii_of_string (escapeArgument arg false) = quote :: body ++ [quote] ∧
  length body = String.length arg + quotes ∧
  (∀ i, body !! i = Some quote → ∃ j, i = S j ∧ body !! j = Some backslash) ∧
  (quotes = 0 → body = list_ascii_of_string arg) ∧
  String.length (escapeArgument arg true) =
    String.length (escapeArgument arg false) + count isMeta (quote :: body ++ [quote]) ∧
  2 + quotes ≤ count isMeta (quote :: body ++ [quote]).
Proof.
  cbv zeta. unfold escapeArgument.
  rewrite !list_ascii_of_string_of_list_ascii.
  assert (∀ l, String.length (string_of_list_ascii l) = length l) as Hlen.
  { intros l. rewrite <- (CodeRetFacts.chars_length (string_of_list_ascii l)).
    unfold CodeRetFacts.chars. by rewrite list_ascii_of_string_of_list_ascii. }
  split_and!.
  - done.
  - rewrite escapeQuotes_length, <- CodeRetFacts.chars_length. done.
  - apply escapeQuotes_guarded.
  - unfold count. induction (list_ascii_of_string arg) as [|c l IH]; simpl; [done|].
    destruct (Ascii.eqb c quote); simpl; [done|]. intros Hq. f_equal. by apply IH.
  - rewrite !Hlen. apply escapeMeta_length.
  - unfold count. cbn [List.filter isMeta]. change (isMeta quote) with true.
    cbn [length]. rewrite List.filter_app, length_app. simpl.
    induction (list_ascii_of_string arg) as [|c l IH]; simpl; [lia|].
    destruct (Ascii.eqb c quote) eqn:Hc; simpl.
    + change (isMeta backslash) with false. change (isMeta quote) with true.
      simpl. lia.
    + destruct (isMeta c); simpl; lia.
Qed.

Example escapeArgument_keeps_backslash :
  escapeArgument (String (ascii_of_nat 97) (String backslash EmptyString)) false =
  String quote (String (ascii_of_nat 97) (String backslash (String quote EmptyString))).
Proof. reflexivity. Qed.

End EscapeArgument.

(** ** [pipe] of the two shell sessions *)

Module ShellPipes.

Inductive Fd : Type := Stdout | Stderr.

(** One call of [pipe(terminal)]: the surface, the [init] flag its
    [reader] closes over, whether [reader] is still a [data] listener of
    the shell's two output streams, and whether the [onData] listener
    ([writer]) is still in place. *)
Record Reader : Type := mkReader {
  terminal : Xterm.Terminal;
  init : bool;
  onStdout : bool;
  onStderr : bool;
  writer : bool;
}.

(** A shell session with the surfaces piped to it.  [discard] is
    [conhost] for a Windows session; the reader of a Unix session has no
    flag and forwards from the first chunk on.  [exited]: [onExit] has
    settled. *)
Record t : Type := mkPiped {
  shell : Completion ChildProcess.t;
  discard : bool;
  exited : bool;
  readers : list Reader;
}.

Definition ofWindows (s : WindowsPseudoterminal.t) : t :=
  mkPiped (WindowsPseudoterminal.shell s) (WindowsPseudoterminal.conhost s) false [].


Section Pipes.
(** [NORMALIZED_LINE_FEED] of [magic.ts], which is not among the sources. *)
Variable NORMALIZED_LINE_FEED : string.

Fixpoint repeat (s : string) (n : nat) : string :=
  match n with
  | 0 => EmptyString
  | S n => (s ++ repeat s n)%string
  end.

(** The text of [clearTerminal(terminal, true)]: the screen is scrolled
    away, then [ansi.erase.display(2)] and [ansi.cursor.position()]. *)
Definition clearKeep (rows : Z) : string :=
  (repeat NORMALIZED_LINE_FEED (Z.to_nat (Z.max (rows - 1) 0))
   ++ Xterm.ESC ++ "[2J" ++ Xterm.ESC ++ "[1;1H")%string.

(** [reader(chunk)]. *)
Definition reader (chunk : string) (r : Reader) : Reader :=
  if negb (init r)
  then mkReader (terminal r) true (onStdout r) (onStderr r) (writer r)
  else mkReader (Xterm.writePromise chunk (terminal r)) (init r)
         (onStdout r) (onStderr r) (writer r).

Definition listening (fd : Fd) (r : Reader) : bool :=
  match fd with Stdout => onStdout r | Stderr => onStderr r end.

(** [pipe(terminal)]; [rows] is [terminal.rows].  The listener of
    [onExit] disposes [writer] at once when the shell has exited
    already. *)
Definition pipe (term : Xterm.Terminal) (rows : Z) (st : t) : Completion unit * t :=
  match shell st with
  | Throw e => (Throw e, st)
  | Normal _ =>
      let term' :=
        Xterm.listen Xterm.OnData (Xterm.writePromise (clearKeep rows) term) in
      (Normal tt,
       mkPiped (shell st) (discard st) (exited st)
         (readers st ++ [mkReader term' (negb (discard st)) true true
                           (negb (exited st))]))
  end.

(** A [data] event of one of the shell's output streams. *)
Definition data (fd : Fd) (chunk : string) (st : t) : t :=
  mkPiped (shell st) (discard st) (exited st)
    ((fun r => if listening fd r then reader chunk r else r) <$> readers st).

(** The surface of the [k]-th pipe reports input. *)
Definition typed (k : nat) (text : string) (st : t) : t :=
  match readers st !! k, shell st with
  | Some r, Normal p =>
      if writer r
      then mkPiped (Normal (ChildProcess.writePromise 0 text p))
             (discard st) (exited st) (readers st)
      else st
  | _, _ => st
  end.

(** The [DisposerAddon] of the [k]-th pipe is disposed. *)
Definition disposeAddon (k : nat) (st : t) : t :=
  mkPiped (shell st) (discard st) (exited st)
    (alter (fun r => mkReader (terminal r) (init r) false false (writer r))
       k (readers st)).

(** The shell exits and [onExit] settles: every [writer] is disposed. *)
Definition exit (st : t) : t :=
  mkPiped (match shell st with
           | Normal p => Normal (ChildProcess.exits p)
           | Throw e => Throw e
           end)
    (discard st) true
    ((fun r => mkReader (terminal r) (init r) (onStdout r) (onStderr r) false)
       <$> readers st).

Inductive Event : Type :=
| Pipe (term : Xterm.Terminal) (rows : Z)
| Data (fd : Fd) (chunk : string)
| Typed (k : nat) (text : string)
| DisposeAddon (k : nat)
| Exit.

Definition step (ev : Event) (st : t) : t :=
  match ev with
  | Pipe term rows => snd (pipe term rows st)
  | Data fd chunk => data fd chunk st
  | Typed k text => typed k text st
  | DisposeAddon k => disposeAddon k st
  | Exit => exit st
  end.

Definition run (evs : list Event) (st : t) : t := foldl (fun st ev => step ev st) st evs.

(** What is on the surface of the [k]-th pipe. *)
Definition screen (k : nat) (st : t) : list string :=
  match readers st !! k with
  | Some r => Xterm.written (terminal r)
  | None => []
  end.

(** The output chunks, of both streams in the order of arrival, up to the
    moment the addon of the [k]-th pipe is disposed. *)
Fixpoint heard (k : nat) (evs : list Event) : list string :=
  match evs with
  | [] => []
  | Data _ chunk :: rest => chunk :: heard k rest
  | DisposeAddon j :: rest => if decide (j = k) then [] else heard k rest
  | _ :: rest => heard k rest
  end.


(** What the events do to the reader of one pipe. *)
Definition stepReader (k : nat) (ev : Event) (r : Reader) : Reader :=
  match ev with
  | Data fd chunk => if listening fd r then reader chunk r else r
  | DisposeAddon j =>
      if decide (j = k)
      then mkReader (terminal r) (init r) false false (writer r) else r
  | Exit => mkReader (terminal r) (init r) (onStdout r) (onStderr r) false
  | _ => r
  end.

Lemma step_reader (k : nat) (ev : Event) (st : t) (r : Reader) :
  readers st !! k = Some r →
  readers (step ev st) !! k = Some (stepReader k ev r).
Proof.
  intros Hk. destruct ev as [term rows|fd chunk|j text|j|]; simpl.
  - unfold pipe. destruct (shell st); simpl; [|done].
    rewrite lookup_app_l; [done|]. by eapply lookup_lt_Some.
  - by rewrite list_lookup_fmap, Hk.
  - unfold typed. destruct (readers st !! j) as [r'|]; [|done].
    destruct (shell st); [|done]. by destruct (writer r').
  - destruct (decide (j = k)) as [->|Hne].
    + rewrite list_lookup_alter_eq, Hk. done.
    + rewrite list_lookup_alter_ne by done. done.
  - by rewrite list_lookup_fmap, Hk.
Qed.

Lemma run_reader (k : nat) (evs : list Event) : ∀ st r,
  readers st !! k = Some r →
  readers (run evs st) !! k = Some (foldl (fun r ev => stepReader k ev r) r evs).
Proof.
  induction evs as [|ev evs IH]; intros st r Hk; [done|].
  simpl. apply (IH (step ev st)). by apply step_reader.
Qed.

Lemma deaf_reader (k : nat) (evs : list Event) : ∀ r,
  onStdout r = false → onStderr r = false →
  Xterm.written (terminal (foldl (fun r ev => stepReader k ev r) r evs)) =
  Xterm.written (terminal r).
Proof.
  induction evs as [|ev evs IH]; intros r Hout Herr; [done|].
  simpl. rewrite IH.
  - destruct ev as [| [|] ? | | j |]; simpl; try done.
    + by rewrite Hout.
    + by rewrite Herr.
    + by destruct (decide (j = k)).
  - destruct ev as [| [|] ? | | j |]; simpl; try done.
    + by rewrite Hout.
    + by rewrite Herr.
    + by destruct (decide (j = k)).
  - destruct ev as [| [|] ? | | j |]; simpl; try done.
    + by rewrite Hout.
    + by rewrite Herr.
    + by destruct (decide (j = k)).
Qed.

Lemma listening_reader (k : nat) (evs : list Event) : ∀ r,
  onStdout r = true → onStderr r = true →
  Xterm.written (terminal (foldl (fun r ev => stepReader k ev r) r evs)) =
  Xterm.written (terminal r) ++
    (if init r then heard k evs else drop 1 (heard k evs)).
Proof.
  induction evs as [|ev evs IH]; intros r Hout Herr.
  { simpl. destruct (init r); by rewrite app_nil_r. }
  destruct ev as [term rows|fd chunk|j text|j|].
  - simpl. by apply IH.
  - cbn [foldl stepReader heard].
    assert (listening fd r = true) as -> by (by destruct fd).
    unfold reader. destruct (init r) eqn:Hinit; cbn [negb].
    + rewrite IH by done. cbn [terminal init Xterm.writePromise Xterm.written].
      by rewrite <- app_assoc.
    + rewrite IH by done. cbn [terminal init]. done.
  - simpl. by apply IH.
  - cbn [foldl stepReader heard]. destruct (decide (j = k)) as [->|Hne].
    + rewrite deaf_reader by done. cbn [terminal].
      destruct (init r); by rewrite app_nil_r.
    + by apply IH.
  - cbn [foldl stepReader heard]. rewrite IH by done. done.
Qed.

(** X10: a surface piped to a running shell shows, after the clearing
    text, the output chunks of both streams in their order of arrival up
    to the moment its addon is disposed, whatever else happens to the
    session or to other surfaces meanwhile.  With [conhost] the first
    chunk the surface hears is dropped, from whichever stream it came and
    however late the surface was piped; without it, and for a Unix
    session, none is. *)
Theorem piped_surface_shows_output (st : t) (p : ChildProcess.t)
    (term : Xterm.Terminal) (rows : Z) (evs : list Event) :
  shell st = Normal p →
  let k := length (readers st) in
  screen k (run evs (snd (pipe term rows st))) =
  Xterm.written term ++ [clearKeep rows] ++
    (if discard st then drop 1 (heard k evs) else heard k evs).
Proof.
  intros Hshell k. unfold screen, pipe. rewrite Hshell. cbn [snd].
  erewrite run_reader.
  2:{ cbn [readers]. rewrite lookup_app_r by done.
      by replace (k - length (readers st)) with 0 by (unfold k; lia). }
  rewrite listening_reader by done. cbn [terminal init].
  cbn [Xterm.listen Xterm.written Xterm.writePromise].
  rewrite <- app_assoc. by destruct (discard st).
Qed.











End Pipes.

Definition CRLF : string := (ShellFacts.CR ++ LF)%string.

Definition conhostSession : WindowsPseudoterminal.t :=
  WindowsPseudoterminal.mkWindows
    (Normal (ChildProcess.spawn 7
       [ChildProcess.Pipe; ChildProcess.Pipe; ChildProcess.Pipe]))
    "exit-code.tmp" None true.


Lemma piped_surface_shows_output_witness :
  screen 0
    (run CRLF [Data Stderr "banner"; Data Stdout "a"; DisposeAddon 0; Data Stdout "b"]
       (snd (pipe CRLF PseudoFacts.term0 24 (ofWindows conhostSession)))) =
  [clearKeep CRLF 24; "a"].
Proof.
  exact (piped_surface_shows_output CRLF (ofWindows conhostSession) _
           PseudoFacts.term0 24
           [Data Stderr "banner"; Data Stdout "a"; DisposeAddon 0; Data Stdout "b"]
           eq_refl).
Defined.


(** A surface piped late to a [conhost] session misses the first chunk
    it hears, which is ordinary output by then. *)
Example late_surface_misses_a_chunk :
  screen 1
    (run CRLF [Data Stdout "banner"; Pipe PseudoFacts.term0 24; Data Stdout "prompt> ";
               Data Stdout "dir"]
       (snd (pipe CRLF PseudoFacts.term0 24 (ofWindows conhostSession)))) =
  [clearKeep CRLF 24; "dir"].
Proof. reflexivity. Qed.

End ShellPipes.

(** ** [UpdatableUI]: updaters and finalizers *)

Module UpdatableUI.

(** A callback handed to the class: it is known by its tag, and either
    returns or throws. *)
Record Fn : Type := mkFn { tag : nat; throws : option Error }.

(** The calls the class makes, in the role it makes them in. *)
Inductive Call : Type :=
| Create (f : Fn)
| Configure (f : Fn)
| Finalize (f : Fn).

(** [#updaters], [#finalizers], and the calls made so far. *)
Record t : Type := mkUI {
  updaters : list Fn;
  finalizers : list Fn;
  log : list Call;
}.

Definition empty : t := mkUI [] [] [].

Definition logged (c : Call) (ui : t) : t :=
  mkUI (updaters ui) (finalizers ui) (log ui ++ [c]).

(** [funcs.forEach(func => { func() })]: the first callback that throws
    ends the loop. *)
Fixpoint forEach (role : Fn → Call) (funcs : list Fn) (ui : t) : Completion unit * t :=
  match funcs with
  | [] => (Normal tt, ui)
  | f :: rest =>
      let ui' := logged (role f) ui in
      match throws f with
      | Some e => (Throw e, ui')
      | None => forEach role rest ui'
      end
  end.

(** [new(create, configure, destroy)]. *)
Definition new (create : Fn) (configure destroy : option Fn) (ui : t)
    : Completion unit * t :=
  let ui1 := logged (Create create) ui in
  match throws create with
  | Some e => (Throw e, ui1)
  | None =>
      let pushFinalizer (ui : t) :=
        match destroy with
        | Some d => mkUI (updaters ui) (finalizers ui ++ [d]) (log ui)
        | None => ui
        end in
      match configure with
      | Some c =>
          let ui2 := logged (Configure c) ui1 in
          match throws c with
          | Some e => (Throw e, ui2)
          | None =>
              (Normal tt,
               pushFinalizer (mkUI (updaters ui2 ++ [c]) (finalizers ui2) (log ui2)))
          end
      | None => (Normal tt, pushFinalizer ui1)
      end
  end.

(** [finally(finalizer)]. *)
Definition finally (finalizer : Fn) (ui : t) : t :=
  mkUI (updaters ui) (finalizers ui ++ [finalizer]) (log ui).

(** [update()]. *)
Definition update (ui : t) : Completion unit * t :=
  forEach Configure (updaters ui) ui.

(** [clear()]: [splice(0)] empties [#finalizers] before the first of them
    runs; [#updaters.length = 0] is reached only when none of them
    throws. *)
Definition clear (ui : t) : Completion unit * t :=
  match forEach Finalize (finalizers ui) (mkUI (updaters ui) [] (log ui)) with
  | (Normal _, ui') => (Normal tt, mkUI [] (finalizers ui') (log ui'))
  | (Throw e, ui') => (Throw e, ui')
  end.

Inductive Op : Type :=
| New (create : Fn) (configure destroy : option Fn)
| Finally (finalizer : Fn)
| Update
| Clear.

Definition step (o : Op) (ui : t) : Completion unit * t :=
  match o with
  | New create configure destroy => new create configure destroy ui
  | Finally finalizer => (Normal tt, finally finalizer ui)
  | Update => update ui
  | Clear => clear ui
  end.

(** The caller goes on after an operation that threw. *)
Definition run (ops : list Op) (ui : t) : t :=
  foldl (fun ui o => snd (step o ui)) ui ops.

(** The finalizers that ran, in the order they ran in. *)
Definition finalized (l : list Call) : list Fn :=
  omap (fun c => match c with Finalize f => Some f | _ => None end) l.

Definition configured (l : list Call) : list Fn :=
  omap (fun c => match c with Configure f => Some f | _ => None end) l.

Definition returns (f : Fn) : Prop := throws f = None.

(** No callback of the operation throws. *)
Definition quiet (o : Op) : Prop :=
  match o with
  | New create configure destroy =>
      returns create ∧ from_option returns True configure
      ∧ from_option returns True destroy
  | Finally finalizer => returns finalizer
  | Update | Clear => True
  end.

(** The finalizers an operation registers. *)
Definition registers (o : Op) : list Fn :=
  match o with
  | New _ _ (Some d) => [d]
  | Finally finalizer => [finalizer]
  | _ => []
  end.

Definition registered (ops : list Op) : list Fn := ops ≫= registers.

Lemma finalized_app (a b : list Call) : finalized (a ++ b) = finalized a ++ finalized b.
Proof. unfold finalized. by rewrite omap_app. Qed.

Lemma forEach_quiet (role : Fn → Call) (funcs : list Fn) : ∀ ui,
  Forall returns funcs →
  forEach role funcs ui =
  (Normal tt, mkUI (updaters ui) (finalizers ui) (log ui ++ (role <$> funcs))).
Proof.
  induction funcs as [|f funcs IH]; intros ui Hall.
  { simpl. rewrite app_nil_r. by destruct ui. }
  inversion Hall as [|? ? Hf Hrest]; subst. simpl. rewrite Hf, IH by done.
  simpl. by rewrite <- app_assoc.
Qed.

Lemma forEach_throws (role : Fn → Call) (pre : list Fn) (f : Fn) (e : Error)
    (post : list Fn) : ∀ ui,
  Forall returns pre → throws f = Some e →
  forEach role (pre ++ f :: post) ui =
  (Throw e, mkUI (updaters ui) (finalizers ui) (log ui ++ (role <$> pre ++ [f]))).
Proof.
  induction pre as [|g pre IH]; intros ui Hall Hf.
  { simpl. by rewrite Hf. }
  inversion Hall as [|? ? Hg Hrest]; subst. simpl. rewrite Hg, IH by done.
  simpl. by rewrite <- app_assoc.
Qed.

Lemma finalized_configure (funcs : list Fn) : finalized (Configure <$> funcs) = [].
Proof. induction funcs; simpl; done. Qed.

Lemma finalized_finalize (funcs : list Fn) : finalized (Finalize <$> funcs) = funcs.
Proof.
  unfold finalized. induction funcs as [|f funcs IH]; csimpl; [done|]. by rewrite IH.
Qed.

Lemma configured_configure (funcs : list Fn) : configured (Configure <$> funcs) = funcs.
Proof.
  unfold configured. induction funcs as [|f funcs IH]; csimpl; [done|]. by rewrite IH.
Qed.

Lemma configured_finalize (funcs : list Fn) : configured (Finalize <$> funcs) = [].
Proof. induction funcs; simpl; done. Qed.

(** Quiet callbacks are kept: what is registered does not throw. *)
Definition Quiet (ui : t) : Prop :=
  Forall returns (updaters ui) ∧ Forall returns (finalizers ui).

Lemma step_quiet (o : Op) (ui : t) :
  quiet o → Quiet ui →
  fst (step o ui) = Normal tt ∧ Quiet (snd (step o ui)) ∧
  finalized (log (snd (step o ui))) ++ finalizers (snd (step o ui)) =
  finalized (log ui) ++ finalizers ui ++ registers o.
Proof.
  intros Ho [Hup Hfin]. destruct o as [create configure destroy|finalizer| |].
  - destruct Ho as (Hc & Hconf & Hd). simpl. unfold new. rewrite Hc.
    destruct configure as [c|]; simpl in Hconf.
    + rewrite Hconf. destruct destroy as [d|]; simpl in Hd; simpl.
      * split; [done|]. split.
        { split; simpl; apply Forall_app; split; try done; by apply Forall_singleton. }
        rewrite !finalized_app. simpl. by rewrite !app_nil_r.
      * split; [done|]. split.
        { split; simpl; [|done]. apply Forall_app. split; [done|].
          by apply Forall_singleton. }
        rewrite !finalized_app. simpl. by rewrite !app_nil_r.
    + destruct destroy as [d|]; simpl in Hd; simpl.
      * split; [done|]. split.
        { split; simpl; [done|]. apply Forall_app. split; [done|].
          by apply Forall_singleton. }
        rewrite !finalized_app. simpl. by rewrite !app_nil_r.
      * split; [done|]. split; [done|].
        rewrite !finalized_app. simpl. by rewrite !app_nil_r.
  - simpl in *. split; [done|]. split; [|done].
    split; simpl; [done|]. apply Forall_app. split; [done|]. by apply Forall_singleton.
  - simpl. unfold update. rewrite forEach_quiet by done. simpl.
    split; [done|]. split; [done|].
    by rewrite finalized_app, finalized_configure, !app_nil_r.
  - simpl. unfold clear. rewrite forEach_quiet by done. simpl.
    split; [done|]. split; [by split; simpl|].
    by rewrite finalized_app, finalized_finalize, !app_nil_r.
Qed.

Lemma run_quiet (ops : list Op) : ∀ ui,
  Forall quiet ops → Quiet ui →
  Quiet (run ops ui) ∧
  finalized (log (run ops ui)) ++ finalizers (run ops ui) =
  finalized (log ui) ++ finalizers ui ++ registered ops.
Proof.
  induction ops as [|o ops IH]; intros ui Hall Hq.
  { simpl. by rewrite !app_nil_r. }
  inversion Hall as [|? ? Ho Hrest]; subst.
  destruct (step_quiet o ui Ho Hq) as (_ & Hq' & Hstep).
  destruct (IH (snd (step o ui)) Hrest Hq') as [Hq'' Hrun].
  split; [done|]. cbn [run foldl]. fold (run ops (snd (step o ui))).
  rewrite Hrun, app_assoc, Hstep. unfold registered. rewrite bind_cons.
  by rewrite <- !app_assoc.
Qed.

(** X12: as long as no callback throws, the finalizers that have run
    followed by the finalizers still pending are the finalizers handed
    over, in the order they were handed over: none runs twice, none is
    lost, none runs before an earlier one.  [clear()] leaves nothing
    behind: neither finalizers nor updaters. *)
Theorem finalizers_run_once_in_order (ops : list Op) :
  Forall quiet ops →
  finalized (log (run ops empty)) ++ finalizers (run ops empty) = registered ops ∧
  finalizers (run (ops ++ [Clear]) empty) = [] ∧
  updaters (run (ops ++ [Clear]) empty) = [] ∧
  finalized (log (run (ops ++ [Clear]) empty)) = registered ops.
Proof.
  intros Hall. assert (Quiet empty) as Hq by (split; constructor).
  destruct (run_quiet ops empty Hall Hq) as [[Hup Hfin] Hrun]. simpl in Hrun.
  split; [done|]. unfold run at 1 2 3. rewrite foldl_app. fold (run ops empty).
  cbn [foldl step]. unfold clear. rewrite forEach_quiet by done. simpl.
  split; [done|]. split; [done|].
  by rewrite finalized_app, finalized_finalize.
Qed.

(** X13: when a finalizer throws, [clear()] passes the error on, the
    finalizers after it do not run and are no longer pending, so that no
    later operation runs them, and the updaters stay: a later [update()]
    calls them again. *)
Theorem throwing_finalizer_drops_the_rest (ui : t) (pre post : list Fn) (f : Fn)
    (e : Error) (ops : list Op) :
  finalizers ui = pre ++ f :: post → Forall returns pre → throws f = Some e →
  Forall returns (updaters ui) → Forall quiet ops →
  let ui' := snd (clear ui) in
  fst (clear ui) = Throw e ∧
  finalizers ui' = [] ∧
  updaters ui' = updaters ui ∧
  log ui' = log ui ++ (Finalize <$> pre ++ [f]) ∧
  configured (log (snd (update ui'))) = configured (log ui) ++ updaters ui ∧
  finalized (log (run ops ui')) ++ finalizers (run ops ui') =
    finalized (log ui) ++ pre ++ [f] ++ registered ops.
Proof.
  intros Hfin Hpre Hf Hup Hops. cbv zeta. unfold clear.
  rewrite Hfin, (forEach_throws Finalize pre f e post) by done. simpl.
  split; [done|]. split; [done|]. split; [done|]. split; [done|]. split.
  - unfold update. simpl. rewrite forEach_quiet by done. simpl.
    assert (∀ a b, configured (a ++ b) = configured a ++ configured b) as Happ.
    { intros a b. unfold configured. by rewrite omap_app. }
    by rewrite !Happ, configured_finalize, configured_configure, app_nil_r.
  - edestruct (run_quiet ops) as [_ ->]; [done| |].
    { split; simpl; [done|constructor]. }
    simpl. rewrite finalized_app, finalized_finalize. by rewrite <- !app_assoc.
Qed.

Definition ok (n : nat) : Fn := mkFn n None.
Definition bad (n : nat) : Fn := mkFn n (Some (mkError "Error" "finalizer")).

Definition script : list Op :=
  [New (ok 0) (Some (ok 1)) (Some (ok 2)); Update; Clear; Finally (ok 3)].

Lemma finalizers_run_once_in_order_witness :
  finalized (log (run script empty)) ++ finalizers (run script empty) = [ok 2; ok 3] ∧
  finalizers (run (script ++ [Clear]) empty) = [] ∧
  updaters (run (script ++ [Clear]) empty) = [] ∧
  finalized (log (run (script ++ [Clear]) empty)) = [ok 2; ok 3].
Proof.
  apply (finalizers_run_once_in_order script).
  unfold script. repeat constructor.
Defined.

Definition halfBuilt : t := mkUI [ok 0] [ok 1; bad 2; ok 3] [].

Lemma throwing_finalizer_drops_the_rest_witness :
  fst (clear halfBuilt) = Throw (mkError "Error" "finalizer") ∧
  finalizers (snd (clear halfBuilt)) = [] ∧
  updaters (snd (clear halfBuilt)) = [ok 0] ∧
  log (snd (clear halfBuilt)) = [Finalize (ok 1); Finalize (bad 2)] ∧
  configured (log (snd (update (snd (clear halfBuilt))))) = [ok 0] ∧
  finalized (log (run [Clear; Update] (snd (clear halfBuilt))))
    ++ finalizers (run [Clear; Update] (snd (clear halfBuilt))) = [ok 1; bad 2].
Proof.
  apply (throwing_finalizer_drops_the_rest halfBuilt [ok 1] [ok 3] (bad 2)
           (mkError "Error" "finalizer") [Clear; Update]).
  - reflexivity.
  - repeat constructor.
  - reflexivity.
  - repeat constructor.
  - repeat constructor.
Defined.

End UpdatableUI.

(** ** The editor records of the console and their markers *)

Module EditorLedger.

(** [#editors] with, for each surface, the [startYMarker] of its editor
    record ([registerMarker] may give [undefined]); the number of markers
    registered so far, which names the next one; and the markers disposed
    so far, one entry for every call of [dispose]. *)
Record t : Type := mkLedger {
  editors : gmap nat (option nat);
  markers : nat;
  disposed : list nat;
}.

Definition empty : t := mkLedger ∅ 0 [].

(** [close() { this.startYMarker?.dispose() }]. *)
Definition close (startYMarker : option nat) (st : t) : t :=
  match startYMarker with
  | Some m => mkLedger (editors st) (markers st) (disposed st ++ [m])
  | None => st
  end.

(** [#setEditor(terminal, editor?)]. *)
Definition setEditor (terminal : nat) (editor : option (option nat)) (st : t) : t :=
  let st' :=
    match editors st !! terminal with
    | Some startYMarker => close startYMarker st
    | None => st
    end in
  mkLedger
    (match editor with
     | Some startYMarker => <[terminal := startYMarker]> (editors st')
     | None => delete terminal (editors st')
     end)
    (markers st') (disposed st').

(** [terminal.registerMarker()]. *)
Definition registerMarker (given : bool) (st : t) : option nat * t :=
  if given
  then (Some (markers st), mkLedger (editors st) (S (markers st)) (disposed st))
  else (None, st).

(** The part of [write] that concerns one surface: the new editor record
    is built, its marker registered, before the old one is closed. *)
Definition write (terminal : nat) (given : bool) (st : t) : t :=
  let '(startYMarker, st') := registerMarker given st in
  setEditor terminal (Some startYMarker) st'.

(** The callback of [onExit]: [#setEditor(terminal)] for every key of
    [#editors].  (The calls are made in the order of insertion; the
    ledger is read up to order.) *)
Definition exit (st : t) : t :=
  foldr (fun terminal st => setEditor terminal None st) st
    ((map_to_list (editors st)).*1).

Inductive Event : Type :=
| Write (terminal : nat) (given : bool)
| Unset (terminal : nat)
| Exit.

Definition step (ev : Event) (st : t) : t :=
  match ev with
  | Write terminal given => write terminal given st
  | Unset terminal => setEditor terminal None st
  | Exit => exit st
  end.

Definition run (evs : list Event) (st : t) : t := foldl (fun st ev => step ev st) st evs.

(** The markers of the editor records in place. *)
Definition live (m : gmap nat (option nat)) : list nat :=
  omap snd (map_to_list m).

Lemma live_insert (m : gmap nat (option nat)) (k : nat) (e : option nat) :
  m !! k = None → live (<[k := e]> m) ≡ₚ option_list e ++ live m.
Proof.
  intros Hk. unfold live. rewrite (map_to_list_insert m k e Hk). csimpl.
  by destruct e.
Qed.

Lemma live_delete (m : gmap nat (option nat)) (k : nat) (e : option nat) :
  m !! k = Some e → live m ≡ₚ option_list e ++ live (delete k m).
Proof.
  intros Hk. unfold live. rewrite <- (map_to_list_delete m k e Hk). csimpl.
  by destruct e.
Qed.

Lemma setEditor_ledger (terminal : nat) (editor : option (option nat)) (st : t) :
  markers (setEditor terminal editor st) = markers st ∧
  disposed (setEditor terminal editor st) ++ live (editors (setEditor terminal editor st))
  ≡ₚ disposed st ++ live (editors st) ++ from_option option_list [] editor.
Proof.
  unfold setEditor. destruct (editors st !! terminal) as [old|] eqn:Hk.
  - assert (editors (close old st) = editors st) as He by (by destruct old).
    assert (markers (close old st) = markers st) as Hm by (by destruct old).
    assert (disposed (close old st) = disposed st ++ option_list old) as Hd.
    { destruct old; simpl; [done|]. by rewrite app_nil_r. }
    cbn [markers disposed editors]. rewrite He, Hm, Hd. split; [done|].
    rewrite (live_delete (editors st) terminal old Hk).
    destruct editor as [e|]; simpl.
    + rewrite <- insert_delete_eq, live_insert by apply lookup_delete_eq.
      rewrite <- !app_assoc. f_equiv. f_equiv. by rewrite Permutation_app_comm.
    + by rewrite app_nil_r, <- app_assoc.
  - cbn [markers disposed editors]. split; [done|]. destruct editor as [e|]; simpl.
    + rewrite live_insert by done. f_equiv. by rewrite Permutation_app_comm.
    + rewrite delete_id by done. by rewrite app_nil_r.
Qed.

(** Every marker registered so far is the marker of an editor record in
    place or has been disposed, and is counted once. *)
Definition Balanced (st : t) : Prop :=
  disposed st ++ live (editors st) ≡ₚ seq 0 (markers st).

Lemma unset_balanced (terminal : nat) (st : t) :
  Balanced st → Balanced (setEditor terminal None st).
Proof.
  unfold Balanced. intros Hb.
  destruct (setEditor_ledger terminal None st) as [-> ->]. simpl.
  by rewrite app_nil_r.
Qed.

Lemma unset_all (ks : list nat) : ∀ st,
  Balanced st →
  Balanced (foldr (fun terminal st => setEditor terminal None st) st ks) ∧
  editors (foldr (fun terminal st => setEditor terminal None st) st ks) =
  foldr delete (editors st) ks.
Proof.
  induction ks as [|k ks IH]; intros st Hb; [done|].
  destruct (IH st Hb) as [Hb' He]. simpl. split; [by apply unset_balanced|].
  rewrite <- He. unfold setEditor at 1.
  by destruct (editors _ !! k) as [[m|]|].
Qed.

Lemma unset_all_markers (ks : list nat) (st : t) :
  markers (foldr (fun terminal st => setEditor terminal None st) st ks) = markers st.
Proof.
  induction ks as [|k ks IH]; [done|]. cbn [foldr].
  by rewrite (proj1 (setEditor_ledger k None _)).
Qed.

Lemma step_balanced (ev : Event) (st : t) : Balanced st → Balanced (step ev st).
Proof.
  intros Hb. destruct ev as [terminal given|terminal|]; simpl.
  - unfold write, registerMarker, Balanced. destruct given.
    + destruct (setEditor_ledger terminal (Some (Some (markers st)))
                  (mkLedger (editors st) (S (markers st)) (disposed st))) as [-> ->].
      cbn [markers disposed editors from_option option_list].
      rewrite seq_S. simpl. rewrite app_assoc. by f_equiv.
    + destruct (setEditor_ledger terminal (Some None) st) as [-> ->].
      simpl. by rewrite app_nil_r.
  - by apply unset_balanced.
  - by apply unset_all.
Qed.

Lemma run_balanced (evs : list Event) : ∀ st, Balanced st → Balanced (run evs st).
Proof.
  induction evs as [|ev evs IH]; intros st Hb; [done|].
  apply (IH (step ev st)). by apply step_balanced.
Qed.

(** X14: over any sequence of writes, closings of surfaces and the exit
    of the session, every marker registered for an editor record is
    either the marker of a record in place or has been disposed, and
    never both nor disposed twice: no marker leaks and none is disposed
    again.  After the exit no editor record is left and every marker
    registered so far has been disposed once. *)
Theorem markers_disposed_once (evs : list Event) :
  let st := run evs empty in
  disposed st ++ live (editors st) ≡ₚ seq 0 (markers st) ∧
  NoDup (disposed st) ∧
  (∀ m, m ∈ disposed st → m ∉ live (editors st)) ∧
  editors (exit st) = ∅ ∧
  disposed (exit st) ≡ₚ seq 0 (markers st).
Proof.
  cbv zeta. assert (Balanced empty) as Hb0.
  { unfold Balanced, live. simpl. by rewrite map_to_list_empty. }
  pose proof (run_balanced evs empty Hb0) as Hb. unfold Balanced in Hb.
  assert (NoDup (disposed (run evs empty) ++ live (editors (run evs empty)))) as Hnd.
  { rewrite Hb. apply NoDup_seq. }
  apply NoDup_app in Hnd as (Hnd & Hdisj & _).
  split; [done|]. split; [done|]. split; [done|].
  destruct (unset_all ((map_to_list (editors (run evs empty))).*1) (run evs empty) Hb)
    as [Hb' He]. fold (exit (run evs empty)) in Hb', He.
  assert (editors (exit (run evs empty)) = ∅) as Hempty.
  { rewrite He. apply map_eq. intros k. rewrite lookup_empty.
    destruct (editors (run evs empty) !! k) as [e|] eqn:Hk.
    - apply lookup_foldr_delete. apply list_elem_of_fmap. exists (k, e).
      split; [done|]. by apply elem_of_map_to_list.
    - destruct (decide (k ∈ (map_to_list (editors (run evs empty))).*1)).
      + by apply lookup_foldr_delete.
      + by rewrite lookup_foldr_delete_not_elem_of. }
  split; [done|]. unfold Balanced in Hb'. rewrite Hempty in Hb'.
  unfold live in Hb'. rewrite map_to_list_empty, app_nil_r in Hb'.
  rewrite Hb'. unfold exit. by rewrite unset_all_markers.
Qed.

End EditorLedger.

(** ** [XtermTerminalEmulator.close] *)

Module EmulatorClose.

(** [#pty] once settled, holding the settled [shell] of the session;
    [#exited]; the calls of [terminal.dispose()]. *)
Record t : Type := mkClosing {
  pty : Completion (Completion ChildProcess.t);
  exited : bool;
  disposals : nat;
}.

Definition killFailure : Error :=
  mkError "Error" "errors.failed-to-kill-pseudoterminal".

(** [close()]: [this.#exited || shell.kill()] does not call [kill] on a
    session that has exited. *)
Definition close (e : t) : Completion unit * t :=
  match pty e with
  | Throw err => (Throw err, e)
  | Normal (Throw err) => (Throw err, e)
  | Normal (Normal shell) =>
      if exited e
      then (Normal tt, mkClosing (pty e) (exited e) (S (disposals e)))
      else
        let '(ok, shell') := ChildProcess.kill shell in
        if ok
        then (Normal tt,
              mkClosing (Normal (Normal shell')) (exited e) (S (disposals e)))
        else (Throw killFailure,
              mkClosing (Normal (Normal shell')) (exited e) (disposals e))
  end.

(** The [exit] future settles: [#exited = true]. *)
Definition settleExit (e : t) : t := mkClosing (pty e) true (disposals e).

(** The shell process exits. *)
Definition processExits (e : t) : t :=
  mkClosing
    (match pty e with
     | Normal (Normal shell) => Normal (Normal (ChildProcess.exits shell))
     | other => other
     end)
    (exited e) (disposals e).

Inductive Event : Type := Close | ProcessExits | SettleExit.

Definition step (ev : Event) (e : t) : t :=
  match ev with
  | Close => snd (close e)
  | ProcessExits => processExits e
  | SettleExit => settleExit e
  end.

Definition run (evs : list Event) (e : t) : t := foldl (fun e ev => step ev e) e evs.

Definition signals (e : t) : list string :=
  match pty e with
  | Normal (Normal shell) => ChildProcess.signalsSent shell
  | _ => []
  end.

Definition alive (e : t) : bool :=
  match pty e with
  | Normal (Normal shell) => ChildProcess.running shell
  | _ => false
  end.

Definition spawned (e : t) : Prop := ∃ shell, pty e = Normal (Normal shell).

Lemma step_settled (ev : Event) (e : t) :
  exited e = true → exited (step ev e) = true ∧ signals (step ev e) = signals e.
Proof.
  intros Hex. destruct ev; simpl.
  - unfold close. destruct (pty e) as [[shell|err]|err] eqn:Hpty; try done.
    rewrite Hex. simpl. split; [done|]. unfold signals. simpl. by rewrite Hpty.
  - unfold processExits, signals. simpl. split; [done|].
    by destruct (pty e) as [[shell|err]|err].
  - done.
Qed.

Lemma run_settled (evs : list Event) : ∀ e,
  exited e = true → signals (run evs e) = signals e.
Proof.
  induction evs as [|ev evs IH]; intros e Hex; [done|].
  destruct (step_settled ev e Hex) as [Hex' Hsig].
  cbn [run foldl]. fold (run evs (step ev e)). by rewrite IH, Hsig.
Qed.

(** X15: a closing returns exactly when the shell was spawned and is
    still running or the exit has settled, and then it disposes the
    surface once; otherwise it throws and leaves the surface and the
    session as they were.  For a spawned shell it throws the
    could-not-kill error exactly when the process is gone while the exit
    has not settled yet.  Once the exit has settled the shell is never
    signalled again, whatever follows. *)
Theorem close_disposes_or_throws (e : t) :
  (fst (close e) = Normal tt ↔ spawned e ∧ (alive e = true ∨ exited e = true)) ∧
  (fst (close e) = Normal tt → disposals (snd (close e)) = S (disposals e)) ∧
  (fst (close e) ≠ Normal tt → snd (close e) = e) ∧
  (spawned e →
   (fst (close e) = Throw killFailure ↔ alive e = false ∧ exited e = false)) ∧
  (exited e = true → ∀ evs, signals (run evs e) = signals e).
Proof.
  split_and!.
  - unfold close, spawned, alive.
    destruct (pty e) as [[shell|err]|err] eqn:Hpty.
    + destruct (exited e) eqn:Hex; simpl.
      * split; [|done]. intros _. split; [by eexists|by right].
      * unfold ChildProcess.kill. destruct (ChildProcess.running shell); simpl.
        -- split; [|done]. intros _. split; [by eexists|by left].
        -- split; [done|]. by intros [_ [?|?]].
    + split; [done|]. by intros [[? ?] _].
    + split; [done|]. by intros [[? ?] _].
  - unfold close. destruct (pty e) as [[shell|err]|err]; try done.
    destruct (exited e); [done|].
    unfold ChildProcess.kill. by destruct (ChildProcess.running shell).
  - unfold close. destruct (pty e) as [[shell|err]|err] eqn:Hpty; try done.
    destruct (exited e) eqn:Hex; [done|].
    unfold ChildProcess.kill. destruct (ChildProcess.running shell); simpl; [done|].
    intros _. destruct e. simpl in *. by rewrite Hpty, Hex.
  - intros [shell Hpty]. unfold close, alive. rewrite Hpty.
    destruct (exited e); simpl.
    + split; [done|]. by intros [_ ?].
    + unfold ChildProcess.kill. destruct (ChildProcess.running shell); simpl.
      * split; [done|]. by intros [? _].
      * done.
  - intros Hex evs. by apply run_settled.
Qed.

Definition gone : t :=
  mkClosing (Normal (Normal (ChildProcess.exits (ChildProcess.spawn 7
    [ChildProcess.Pipe; ChildProcess.Pipe; ChildProcess.Pipe])))) false 0.

(** In the window between the end of the process and the settling of the
    exit a closing fails; after the settling it goes through. *)
Example close_fails_in_the_window :
  fst (close gone) = Throw killFailure ∧ snd (close gone) = gone ∧
  fst (close (settleExit gone)) = Normal tt ∧
  disposals (snd (close (settleExit gone))) = 1.
Proof. repeat split. Qed.

End EmulatorClose.

(** ** The surfaces of a [TextPseudoterminal] *)

Module TextSurfaces.
Import TextPseudoterminal.

Section Surfaces.
Context `{Collaborators}.

(** A text session and the surfaces created so far; a surface is named
    by its place in the list. *)
Record t : Type := mkShown {
  session : TextPseudoterminal.t;
  surfaces : list Xterm.Terminal;
}.

Definition create (text : string) : t := mkShown (TextPseudoterminal.create text) [].

(** [rewrite(text)] with the default [terminals = this.terminals]. *)
Definition rewriteAll (text : string) (handles : list nat)
    (surfaces : list Xterm.Terminal) : list Xterm.Terminal :=
  foldl (fun surfaces h => alter (rewrite text) h surfaces) surfaces handles.

(** [set text(value)]. *)
Definition setText (value : string) (st : t) : t :=
  mkShown (mkText (base (session st)) value)
    (rewriteAll (normalizeText value) (Pseudo.terminals (base (session st)))
       (surfaces st)).

(** A new surface is piped to the session. *)
Definition attach (st : t) : Completion unit * t :=
  let '(r, s, term) :=
    pipe (Xterm.mkTerminal (length (surfaces st)) [] [] []) (session st) in
  (r, mkShown s (surfaces st ++ [term])).

Definition kill (st : t) : Completion unit * t :=
  let '(r, s) := TextPseudoterminal.kill (session st) in (r, mkShown s (surfaces st)).

Inductive Event : Type :=
| Attach
| SetText (value : string)
| Kill.

Definition step (ev : Event) (st : t) : t :=
  match ev with
  | Attach => snd (attach st)
  | SetText value => setText value st
  | Kill => snd (kill st)
  end.

Definition run (evs : list Event) (st : t) : t := foldl (fun st ev => step ev st) st evs.

Definition attached (st : t) : list nat := Pseudo.terminals (base (session st)).

(** The surface ends with the clearing text and the given text. *)
Definition shows (text : string) (term : Xterm.Terminal) : Prop :=
  ∃ before,
    Xterm.written term = before ++ [(Xterm.ESC ++ "[3J" ++ Xterm.ESC ++ "[1;1H")%string; text].

Lemma rewrite_shows (text : string) (term : Xterm.Terminal) :
  shows text (rewrite text term).
Proof.
  exists (Xterm.written term). unfold rewrite, Xterm.clearTerminal. simpl.
  by rewrite <- app_assoc.
Qed.

Lemma rewriteAll_snoc (text : string) (hs : list nat) (h : nat)
    (ss : list Xterm.Terminal) :
  rewriteAll text (hs ++ [h]) ss = alter (rewrite text) h (rewriteAll text hs ss).
Proof. unfold rewriteAll. by rewrite foldl_app. Qed.

Lemma rewriteAll_length (text : string) (hs : list nat) : ∀ ss,
  length (rewriteAll text hs ss) = length ss.
Proof.
  induction hs as [|h hs IH]; intros ss; [done|].
  simpl. fold (rewriteAll text hs (alter (rewrite text) h ss)).
  by rewrite IH, length_alter.
Qed.

Lemma rewriteAll_shows (text : string) (hs : list nat) (ss : list Xterm.Terminal)
    (h : nat) :
  h ∈ hs → h < length ss →
  ∃ term, rewriteAll text hs ss !! h = Some term ∧ shows text term.
Proof.
  induction hs as [|h' hs IH] using rev_ind; intros Hin Hlt.
  { by apply elem_of_nil in Hin. }
  rewrite rewriteAll_snoc. destruct (decide (h = h')) as [<-|Hne].
  - destruct (lookup_lt_is_Some_2 (rewriteAll text hs ss) h) as [term Hterm].
    { by rewrite rewriteAll_length. }
    exists (rewrite text term). rewrite list_lookup_alter_eq, Hterm.
    split; [done|]. apply rewrite_shows.
  - rewrite list_lookup_alter_ne by done. apply IH; [|done].
    apply elem_of_app in Hin as [Hin|Hin]; [done|].
    apply list_elem_of_singleton in Hin. congruence.
Qed.

(** Every attached surface exists and shows the session's text; an
    exited session has no surface attached. *)
Definition Shown (st : t) : Prop :=
  (∀ h, h ∈ attached st →
     ∃ term, surfaces st !! h = Some term ∧
             shows (normalizeText (text (session st))) term) ∧
  (Pseudo.exited (base (session st)) = true → attached st = []).

Lemma step_shown (ev : Event) (st : t) : Shown st → Shown (step ev st).
Proof.
  intros [Hshow Hex]. unfold Shown, attached in *.
  destruct ev as [|value|]; simpl.
  - unfold attach, pipe, Pseudo.pipe.
    destruct (Pseudo.exited (base (session st))) eqn:Hexited; simpl.
    + split; [|by intros _; apply Hex]. intros h Hh.
      rewrite Hex in Hh by done. by apply elem_of_nil in Hh.
    + split; [|done]. intros h Hh.
      apply elem_of_app in Hh as [Hh|Hh].
      * destruct (Hshow h Hh) as (term & Hterm & Hs). exists term.
        split; [|done]. rewrite lookup_app_l; [done|]. by eapply lookup_lt_Some.
      * apply list_elem_of_singleton in Hh. subst h. eexists. split.
        { rewrite lookup_app_r by done. by rewrite Nat.sub_diag. }
        apply rewrite_shows.
  - split; [|done]. intros h Hh.
    apply rewriteAll_shows; [done|].
    destruct (Hshow h Hh) as (term & Hterm & _). by eapply lookup_lt_Some.
  - unfold kill, TextPseudoterminal.kill, Pseudo.kill.
    destruct (Pseudo.exit (base (session st))); simpl; [|done..].
    split; [|done]. intros h Hh. by apply elem_of_nil in Hh.
Qed.

Lemma run_shown (evs : list Event) : ∀ st, Shown st → Shown (run evs st).
Proof.
  induction evs as [|ev evs IH]; intros st Hs; [done|].
  apply (IH (step ev st)). by apply step_shown.
Qed.

(** X16: over any sequence of attachments, changes of the text and
    kills, every surface attached to a text session ends with the
    clearing text followed by the normalized current text; once the
    session has exited no surface is attached and a change of the text
    writes to none. *)
Theorem attached_surfaces_show_text (text0 : string) (evs : list Event) :
  let st := run evs (create text0) in
  (∀ h, h ∈ attached st →
     ∃ term, surfaces st !! h = Some term ∧
             shows (normalizeText (text (session st))) term) ∧
  (Pseudo.exited (base (session st)) = true →
     attached st = [] ∧ ∀ value, surfaces (setText value st) = surfaces st).
Proof.
  cbv zeta. assert (Shown (create text0)) as Hs0.
  { split; [|done]. intros h Hh. by apply elem_of_nil in Hh. }
  destruct (run_shown evs (create text0) Hs0) as [Hshow Hex].
  split; [done|]. intros Hexited. split; [by apply Hex|].
  intros value. unfold setText. cbn [surfaces].
  unfold attached in Hex. by rewrite Hex.
Qed.

End Surfaces.
End TextSurfaces.

(** ** [RendererAddon] *)

Module RendererAddon.

Inductive RendererOption : Type := Dom | Canvas | Webgl.

(** How the attempt to get a renderer from a supplier and to load it
    into the terminal goes.  ([dispose] of a renderer and the
    registration of the context-loss listener are taken to return.) *)
Inductive Attempt : Type :=
| SupplierThrows
| LoadThrows
| Loads.

Inductive Call : Type :=
| Dispose (renderer : nat)
| LoadAddon (renderer : nat)
| Warn.

(** [renderer], whether [#terminal] is set, the number of renderers the
    suppliers have made, which names the next one, and the calls made. *)
Record t : Type := mkAddon {
  renderer : option nat;
  activated : bool;
  supplied : nat;
  log : list Call;
}.

(** [this.renderer?.dispose()]. *)
Definition disposeRenderer (a : t) : t :=
  match renderer a with
  | Some r => mkAddon (renderer a) (activated a) (supplied a) (log a ++ [Dispose r])
  | None => a
  end.

Definition warn (a : t) : t :=
  mkAddon (renderer a) (activated a) (supplied a) (log a ++ [Warn]).

(** The [try] block of the two renderer cases:
    [term.loadAddon(this.renderer = supplier())]; the result tells
    whether it threw. *)
Definition tryLoad (attempt : Attempt) (a : t) : bool * t :=
  match attempt with
  | SupplierThrows => (true, a)
  | LoadThrows =>
      (true, mkAddon (Some (supplied a)) (activated a) (S (supplied a))
               (log a ++ [LoadAddon (supplied a)]))
  | Loads =>
      (false, mkAddon (Some (supplied a)) (activated a) (S (supplied a))
                (log a ++ [LoadAddon (supplied a)]))
  end.

Definition useDom (a : t) : t :=
  if negb (activated a) then a
  else
    let a := disposeRenderer a in
    mkAddon None (activated a) (supplied a) (log a).

Definition useCanvas (canvas : Attempt) (a : t) : t :=
  if negb (activated a) then a
  else
    let '(threw, a) := tryLoad canvas (disposeRenderer a) in
    if threw then useDom (warn a) else a.

Definition useWebgl (webgl canvas : Attempt) (a : t) : t :=
  if negb (activated a) then a
  else
    let '(threw, a) := tryLoad webgl (disposeRenderer a) in
    if threw then useCanvas canvas (warn a) else a.

(** [use(renderer)]; [webgl] and [canvas] tell how an attempt with the
    one and the other supplier goes during this call. *)
Definition use (option : RendererOption) (webgl canvas : Attempt) (a : t) : t :=
  match option with
  | Dom => useDom a
  | Canvas => useCanvas canvas a
  | Webgl => useWebgl webgl canvas a
  end.

(** [activate(terminal)] and [dispose()]. *)
Definition activate (a : t) : t :=
  mkAddon (renderer a) true (supplied a) (log a).

Definition dispose (a : t) : t :=
  let a := disposeRenderer a in
  mkAddon (renderer a) false (supplied a) (log a).

(** The attempts a call goes through at most, in their order. *)
Definition chain (option : RendererOption) (webgl canvas : Attempt) : list Attempt :=
  match option with
  | Dom => []
  | Canvas => [canvas]
  | Webgl => [webgl; canvas]
  end.

Definition isLoads (x : Attempt) : bool :=
  match x with Loads => true | _ => false end.

Definition isSupplierThrows (x : Attempt) : bool :=
  match x with SupplierThrows => true | _ => false end.

(** The attempts made: up to the first that loads. *)
Fixpoint made (attempts : list Attempt) : list Attempt :=
  match attempts with
  | [] => []
  | x :: rest => if isLoads x then [x] else x :: made rest
  end.

(** The attempts that failed before a renderer existed. *)
Fixpoint barren (attempts : list Attempt) : nat :=
  match attempts with
  | SupplierThrows :: rest => S (barren rest)
  | _ => 0
  end.

Definition disposalsOf (r : nat) (l : list Call) : nat :=
  length (List.filter (fun c => match c with Dispose r' => Nat.eqb r r' | _ => false end) l).

Definition renderersOf (attempts : list Attempt) : nat :=
  length (List.filter (fun x => negb (isSupplierThrows x)) attempts).

Lemma disposalsOf_app (r : nat) (a b : list Call) :
  disposalsOf r (a ++ b) = disposalsOf r a + disposalsOf r b.
Proof. unfold disposalsOf. by rewrite List.filter_app, length_app. Qed.

(** X17: on an activated addon [use] never leaves an error behind: it
    goes down the chain webgl, canvas, dom and ends with the renderer of
    the first attempt that loads, or with none.  Every renderer made on
    the way that failed to load is disposed, once or twice.  The
    renderer in place before the call is disposed once at the start and
    once more for every supplier that throws before a renderer has been
    made.
    Before [activate] and after [dispose] the call does nothing. *)
Theorem use_falls_back (option : RendererOption) (webgl canvas : Attempt) (a : t) :
  let attempts := made (chain option webgl canvas) in
  let a' := use option webgl canvas a in
  (activated a = false → a' = a) ∧
  (activated a = true → (∀ r, renderer a = Some r → r < supplied a) →
   activated a' = true ∧
   supplied a' = supplied a + renderersOf attempts ∧
   renderer a' =
     (if existsb isLoads attempts then Some (supplied a' - 1) else None) ∧
   (∀ r, supplied a ≤ r < supplied a' → Some r ≠ renderer a' →
      disposalsOf r (log a) + 1 ≤ disposalsOf r (log a') ≤ disposalsOf r (log a) + 2) ∧
   (∀ r, renderer a = Some r →
      disposalsOf r (log a') = disposalsOf r (log a) + 1 + barren attempts)).
Proof.
  cbv zeta. destruct a as [ren act sup lg]. cbn [activated]. split.
  - intros ->. by destruct option.
  - intros -> Hwf. cbn [renderer supplied] in Hwf.
    destruct option, webgl, canvas, ren as [r0|];
      try (specialize (Hwf r0 eq_refl));
      cbn [use useWebgl useCanvas useDom tryLoad disposeRenderer warn negb
           activated renderer supplied log chain made isLoads existsb orb
           renderersOf List.filter isSupplierThrows length barren];
      (split; [done|]); (split; [lia|]);
      (split; [by rewrite ?Nat.sub_0_r; repeat f_equal; lia|]);
      (split; [intros r Hr Hne|intros r Hr0; simplify_eq]);
      try (assert (∀ x, Some r = Some x → r = x) as Hinj by (by intros x [=]));
      rewrite ?disposalsOf_app; cbn [disposalsOf List.filter length];
      repeat (case Nat.eqb_spec; intros; subst; cbn [length]);
      try lia; try congruence;
      try (exfalso; apply Hne; f_equal; lia).
Qed.

Definition fresh : t := activate (mkAddon None false 0 []).

Lemma use_falls_back_witness :
  renderer (use Webgl LoadThrows Loads fresh) = Some 1 ∧
  disposalsOf 0 (log (use Webgl LoadThrows Loads fresh)) = 1 ∧
  disposalsOf 1
    (log (use Webgl SupplierThrows SupplierThrows (use Webgl LoadThrows Loads fresh))) = 3.
Proof.
  destruct (proj2 (use_falls_back Webgl LoadThrows Loads fresh) eq_refl)
    as (_ & _ & Hren & Hnew & _); [discriminate|].
  destruct (proj2 (use_falls_back Webgl SupplierThrows SupplierThrows
                     (use Webgl LoadThrows Loads fresh)) eq_refl)
    as (_ & _ & _ & _ & Hold); [by intros r [= <-]; simpl; lia|].
  split; [exact Hren|]. split.
  - reflexivity.
  - apply (Hold 1). reflexivity.
Defined.

(** A renderer that failed to load is disposed a second time when the
    next supplier throws. *)
Example failed_renderer_disposed_twice :
  disposalsOf 0 (log (use Webgl LoadThrows SupplierThrows fresh)) = 2 ∧
  renderer (use Webgl LoadThrows SupplierThrows fresh) = None.
Proof. split; reflexivity. Qed.

End RendererAddon.

(** ** [DeveloperConsolePseudoterminal.format] and its cache *)

Module FormatCache.

Inductive Style : Type := Blue | Red | White | Yellow.

Inductive ConsoleType : Type := TDebug | TError | TInfo | TWarn.

(** [Log.Event]. *)
Inductive LogEvent : Type :=
| Console (type : ConsoleType) (data : list JSValue)
| WindowError (message data : JSValue)
| UnhandledRejection (reason data : JSValue).

(** [DeveloperConsolePseudoterminal.colors]. *)
Definition colors (type : ConsoleType) : Style :=
  match type with
  | TDebug => Blue
  | TError => Red
  | TInfo => White
  | TWarn => Yellow
  end.

(** [#formatCache], keyed by the identity of the event, and
    [context.depth], which the scripts of the console may assign. *)
Record t : Type := mkFormat {
  cache : gmap nat string;
  depth : Z;
}.

Section Format.
(** [logFormat] with the [depth] and the [styles] of its options, and the
    texts of [ansi.styles] and [ansi.style.reset]: library code. *)
Variable logFormat : Z → list Style → list JSValue → string.
Variable ansiStyles : list Style → string.
Variable reset : string.
(** The event objects, by identity. *)
Variable events : nat → LogEvent.

(** The text [format] computes on a miss. *)
Definition render (depth : Z) (event : LogEvent) : string :=
  let '(styles, ret) :=
    match event with
    | Console type data => ([colors type], logFormat depth [colors type] data)
    | WindowError message data => ([Red], logFormat depth [Red] [message; data])
    | UnhandledRejection reason data => ([Red], logFormat depth [Red] [reason; data])
    end in
  (ansiStyles styles ++ ret ++ reset)%string.

(** [format(event)]. *)
Definition format (event : nat) (st : t) : string * t :=
  match cache st !! event with
  | Some ret => (ret, st)
  | None =>
      let ret := render (depth st) (events event) in
      (ret, mkFormat (<[event := ret]> (cache st)) (depth st))
  end.

Inductive Op : Type :=
| Format (event : nat)
| SetDepth (depth : Z).

Definition step (o : Op) (st : t) : t :=
  match o with
  | Format event => snd (format event st)
  | SetDepth d => mkFormat (cache st) d
  end.

Definition run (ops : list Op) (st : t) : t := foldl (fun st o => step o st) st ops.

Lemma step_keeps (o : Op) (st : t) (event : nat) (text : string) :
  cache st !! event = Some text → cache (step o st) !! event = Some text.
Proof.
  intros Hc. destruct o as [event'|d]; simpl; [|done].
  unfold format. destruct (cache st !! event') eqn:He; simpl; [done|].
  rewrite lookup_insert_ne; [done|]. congruence.
Qed.

Lemma run_keeps (ops : list Op) : ∀ st event text,
  cache st !! event = Some text → cache (run ops st) !! event = Some text.
Proof.
  induction ops as [|o ops IH]; intros st event text Hc; [done|].
  apply (IH (step o st)). by apply step_keeps.
Qed.

(** X18: the text of an event is fixed when the event is formatted for
    the first time, with the depth of that moment: whatever is formatted
    and however the depth is changed afterwards, formatting the event
    again gives that same text. *)
Theorem format_is_fixed_at_first_use (st : t) (event : nat) (ops : list Op) :
  cache st !! event = None →
  fst (format event st) = render (depth st) (events event) ∧
  fst (format event (run ops (snd (format event st)))) =
    render (depth st) (events event).
Proof.
  intros Hmiss. unfold format at 1 3. rewrite Hmiss. cbn [fst snd].
  split; [done|]. unfold format.
  erewrite run_keeps; [done|]. cbn [cache]. by rewrite lookup_insert_eq.
Qed.

End Format.

Lemma format_is_fixed_at_first_use_witness :
  fst (format (fun d _ _ => pretty d) (fun _ => "") "" (fun _ => Console TInfo [])
         7 (run (fun d _ _ => pretty d) (fun _ => "") "" (fun _ => Console TInfo [])
              [SetDepth 3; Format 8; Format 7]
              (snd (format (fun d _ _ => pretty d) (fun _ => "") ""
                      (fun _ => Console TInfo []) 7 (mkFormat ∅ 0))))) = "0".
Proof.
  exact (proj2 (format_is_fixed_at_first_use (fun d _ _ => pretty d) (fun _ => "") ""
                  (fun _ => Console TInfo []) (mkFormat ∅ 0) 7
                  [SetDepth 3; Format 8; Format 7] (lookup_empty _))).
Defined.

End FormatCache.

(** ** The error level in the temp file of the Windows session *)

Module ErrorLevelFacts.
Import WindowsPseudoterminal.

(** What [echo %ERRORLEVEL% >file] leaves in the temp file: the decimal
    text of the level, which is a signed number, the blank before [>],
    and the line end. *)
Definition echoedLevel (z : Z) : string :=
  (pretty z ++ " " ++ ShellFacts.CR ++ LF)%string.

Lemma parse_echoed_level (z : Z) : parseInt10 (trim (echoedLevel z)) = Num z.
Proof.
  destruct z as [|x|x].
  - reflexivity.
  - exact (ShellFacts.parse_echoed (N.pos x)).
  - unfold echoedLevel.
    change (pretty (Z.neg x)) with (String "-" (pretty_N_go (N.pos x) "")).
    destruct (ShellFacts.pretty_go_digits (N.pos x) "") as (pre & Hpre & Hall & Hne).
    simpl in Hpre. rewrite app_nil_r in Hpre.
    assert (Forall (λ c, isWhiteSpace c = false) ("-"%char :: pre)) as Hnw.
    { constructor; [done|]. eapply Forall_impl; [done|].
      apply ShellFacts.digit_not_white. }
    assert (trim (String "-" (pretty_N_go (N.pos x) "") ++ " " ++ ShellFacts.CR ++ LF)
            = String "-" (pretty_N_go (N.pos x) "")) as ->.
    { unfold trim. rewrite ShellFacts.list_ascii_app.
      change (list_ascii_of_string (String "-" (pretty_N_go (N.pos x) "")))
        with ("-"%char :: list_ascii_of_string (pretty_N_go (N.pos x) "")).
      rewrite Hpre. rewrite <- app_comm_cons.
      rewrite (ShellFacts.dropWhile_head isWhiteSpace "-"%char) by done.
      rewrite app_comm_cons, rev_app_distr.
      rewrite ShellFacts.dropWhile_all by (repeat constructor).
      rewrite ShellFacts.dropWhile_none by (by apply Forall_rev).
      rewrite rev_involutive, <- Hpre. simpl. f_equal.
      apply string_of_list_ascii_of_string. }
    unfold parseInt10.
    change (list_ascii_of_string (String "-" (pretty_N_go (N.pos x) "")))
      with ("-"%char :: list_ascii_of_string (pretty_N_go (N.pos x) "")).
    rewrite (ShellFacts.dropWhile_head isWhiteSpace "-"%char) by done.
    change (Ascii.eqb "-" "-") with true. cbn iota.
    rewrite (ShellFacts.digits_pretty_go (N.pos x) "") by lia. simpl. done.
Qed.

(** X19: whatever the console process reports, the error level that
    [echo] wrote to the temp file is what the exit future resolves to,
    for every level, the negative ones included: the decimal text, with
    its sign, followed by a space and a line end is read back as the
    number. *)
Theorem signed_error_level_recovered (z : Z) (delay : Z) (path : string)
    (conCode : option Z) (signal : option string) :
  parseInt10 (trim (echoedLevel z)) = Num z ∧
  fst (onShellExit delay path conCode signal
         (mkWorld {[path := echoedLevel z]} [] [])) = ExitCode (Num z).
Proof.
  split; [apply parse_echoed_level|].
  unfold onShellExit, readFile. cbn [files]. rewrite lookup_singleton_eq.
  by rewrite parse_echoed_level.
Qed.

(** The level that a shell stopped with Ctrl-C reports. *)
Example interrupted_level_recovered :
  fst (onShellExit 5 "C:\tmp\code" (Some 1%Z) None
         (mkWorld {["C:\tmp\code" := echoedLevel (-1073741510)]} [] [])) =
  ExitCode (Num (-1073741510)).
Proof.
  unfold onShellExit, readFile. cbn [files]. rewrite lookup_singleton_eq.
  by rewrite parse_echoed_level.
Qed.

End ErrorLevelFacts.
